(** * ResearchOrbit: the citation-graph cache gate of [AllPapers.tsx]

    A shallow embedding of the cache gate that the page
    [src/pages/AllPapers.tsx] puts in front of the citation crawler:
    the seed identifiers ([seedDois]), their signature ([cacheSig]),
    the guarded read ([tryLoadCache]), the best-effort write
    ([saveCache]) and the orchestration ([buildOrLoad]).

    The JavaScript platform the code runs on is modelled in the first
    half of the file: strings are sequences of code units (here the
    8-bit range, as [string]), [Array.prototype.sort] without a
    comparator, [Array.from(new Set(_))], [String.prototype.trim],
    [JSON.stringify]/[JSON.parse] on the integer fragment of JSON, and
    [localStorage] as a string-to-string map whose operations may
    throw.  Exceptions and the mutable state of the component are
    threaded through a small state-and-exception monad. *)

From stdpp Require Import gmap strings list sorting.
From Stdlib Require Import Strings.String Strings.Ascii ZArith Decimal
  DecimalFacts DecimalZ.

Open Scope string_scope.
Open Scope list_scope.

Set Warnings "-register-all".

(* ================================================================== *)
(** * Part I: the JavaScript platform                                  *)
(* ================================================================== *)

(** ** Strings, ordering, arrays *)

(** The order [Array.prototype.sort] uses on strings when called with
    no comparator: lexicographic on code units, a proper prefix first. *)
Definition str_le (x y : string) : Prop := String.leb x y = true.

#[global] Instance str_le_dec : RelDecision str_le.
Proof. intros x y. unfold str_le. apply _. Defined.

(** [arr.slice().sort()]: a sorted copy.  ECMAScript leaves the
    algorithm to the engine; a merge sort stands for it here, and
    [Array_sort_unique] below shows the result does not depend on that
    choice. *)
Definition Array_sort (l : list string) : list string := merge_sort str_le l.

(** [arr.join(sep)] on an array of strings. *)
Definition Array_join (sep : string) (l : list string) : string :=
  String.concat sep l.

(** [Set.prototype.add]: the set keeps insertion order and ignores a
    value it already holds. *)
Definition Set_add (seen : list string) (x : string) : list string :=
  if bool_decide (x ∈ seen) then seen else seen ++ [x].

(** [Array.from(new Set(arr))]: the distinct elements of [arr], each at
    the place of its first occurrence. *)
Definition Array_from_Set (arr : list string) : list string :=
  fold_left Set_add arr [].

(** White space and line terminators of ECMAScript that fit in eight
    bits: TAB, LF, VT, FF, CR, SPACE and NBSP. *)
Definition is_js_space (c : ascii) : bool :=
  match N_of_ascii c with
  | 9 | 10 | 11 | 12 | 13 | 32 | 160 => true
  | _ => false
  end%N.

Fixpoint trimStart (s : string) : string :=
  match s with
  | String c r => if is_js_space c then trimStart r else s
  | EmptyString => EmptyString
  end.

Fixpoint str_rev_onto (s acc : string) : string :=
  match s with
  | String c r => str_rev_onto r (String c acc)
  | EmptyString => acc
  end.

Definition str_rev (s : string) : string := str_rev_onto s EmptyString.

(** [String.prototype.trim]. *)
Definition trim (s : string) : string :=
  str_rev (trimStart (str_rev (trimStart s))).

(** ** Values that [JSON.parse] can produce *)

(** Numbers are restricted to integers: the only number of a cached
    graph is the depth of a node.  An object keeps its members in text
    order. *)
Inductive value : Type :=
| VNull
| VBool (b : bool)
| VNum (n : Z)
| VStr (s : string)
| VArr (elems : list value)
| VObj (members : list (string * value)).

(** The last member named [k]: when a JSON text repeats a name, the
    later value is the one the parsed object holds. *)
Fixpoint last_member (k : string) (ms : list (string * value)) : option value :=
  match ms with
  | [] => None
  | (k', v) :: rest =>
      match last_member k rest with
      | Some v' => Some v'
      | None => if String.eqb k k' then Some v else None
      end
  end.

(** The property read [v.k] for a name [k] that no built-in prototype
    defines ([sig], [graph], [nodes], [links]): a member of an object,
    [undefined] (here [None]) on arrays, strings, numbers and
    booleans.  Reading a property of [null] is a [TypeError] and is
    handled where it can happen. *)
Definition get_prop (v : value) (k : string) : option value :=
  match v with
  | VObj ms => last_member k ms
  | _ => None
  end.

(** Optional chaining [v?.k], where [v] may be [undefined] or [null]. *)
Definition get_prop_opt (v : option value) (k : string) : option value :=
  match v with
  | None | Some VNull => None
  | Some v' => get_prop v' k
  end.

(** [ToBoolean]; [None] is [undefined]. *)
Definition truthy (v : option value) : bool :=
  match v with
  | None => false
  | Some VNull => false
  | Some (VBool b) => b
  | Some (VNum n) => negb (Z.eqb n 0)
  | Some (VStr s) => negb (String.eqb s EmptyString)
  | Some (VArr _) => true
  | Some (VObj _) => true
  end.

(** [ToBoolean] of a value that is a string, [null] or [undefined]. *)
Definition truthy_str (s : option string) : bool :=
  match s with
  | None => false
  | Some s' => negb (String.eqb s' EmptyString)
  end.

(** Strict equality [v === s] against a string. *)
Definition strict_eq_str (v : option value) (s : string) : bool :=
  match v with
  | Some (VStr s') => String.eqb s' s
  | _ => false
  end.

(** ** [JSON.stringify] *)

(** Every printer takes the text that follows as [k], so that the
    output is built left to right without appending. *)
Fixpoint emit (w k : string) : string :=
  match w with
  | EmptyString => k
  | String c w' => String c (emit w' k)
  end.

Fixpoint print_digits (d : uint) (k : string) : string :=
  match d with
  | Nil => k
  | D0 d' => String "0" (print_digits d' k)
  | D1 d' => String "1" (print_digits d' k)
  | D2 d' => String "2" (print_digits d' k)
  | D3 d' => String "3" (print_digits d' k)
  | D4 d' => String "4" (print_digits d' k)
  | D5 d' => String "5" (print_digits d' k)
  | D6 d' => String "6" (print_digits d' k)
  | D7 d' => String "7" (print_digits d' k)
  | D8 d' => String "8" (print_digits d' k)
  | D9 d' => String "9" (print_digits d' k)
  end.

Definition print_int (n : Z) (k : string) : string :=
  match Z.to_int n with
  | Pos d => print_digits d k
  | Neg d => String "-" (print_digits d k)
  end.

(** The double quote, code unit 34. *)
Definition quote_char : ascii := ascii_of_N 34.

Definition hex_digit (n : N) : ascii :=
  match n with
  | 0 => "0" | 1 => "1" | 2 => "2" | 3 => "3" | 4 => "4" | 5 => "5"
  | 6 => "6" | 7 => "7" | 8 => "8" | 9 => "9" | 10 => "a" | 11 => "b"
  | 12 => "c" | 13 => "d" | 14 => "e" | _ => "f"
  end%N%char.

(** [QuoteJSONString] on one code unit. *)
Definition print_char (c : ascii) (k : string) : string :=
  let n := N_of_ascii c in
  if (n =? 34)%N then String "\" (String quote_char k)
  else if (n =? 92)%N then String "\" (String "\" k)
  else if (n =? 8)%N then String "\" (String "b" k)
  else if (n =? 9)%N then String "\" (String "t" k)
  else if (n =? 10)%N then String "\" (String "n" k)
  else if (n =? 12)%N then String "\" (String "f" k)
  else if (n =? 13)%N then String "\" (String "r" k)
  else if (n <? 32)%N then
    String "\" (String "u" (String "0" (String "0"
      (String (hex_digit (n / 16)) (String (hex_digit (n mod 16)) k)))))
  else String c k.

Fixpoint print_chars (s : string) (k : string) : string :=
  match s with
  | EmptyString => String quote_char k
  | String c r => print_char c (print_chars r k)
  end.

Definition print_string (s : string) (k : string) : string :=
  String quote_char (print_chars s k).

(** The elements after the first, each behind its comma, then the
    closing bracket. *)
Definition print_elems (pv : value -> string -> string) (k : string)
  : list value -> string :=
  fix more (l : list value) : string :=
    match l with
    | [] => String "]" k
    | y :: l' => String "," (pv y (more l'))
    end.

Definition print_member (pv : value -> string -> string)
    (m : string * value) (k : string) : string :=
  print_string (fst m) (String ":" (pv (snd m) k)).

Definition print_members (pv : value -> string -> string) (k : string)
  : list (string * value) -> string :=
  fix more (l : list (string * value)) : string :=
    match l with
    | [] => String "}" k
    | m :: l' => String "," (print_member pv m (more l'))
    end.

Fixpoint print_value (v : value) (k : string) : string :=
  match v with
  | VNull => emit "null" k
  | VBool true => emit "true" k
  | VBool false => emit "false" k
  | VNum n => print_int n k
  | VStr s => print_string s k
  | VArr [] => emit "[]" k
  | VArr (x :: t) => String "[" (print_value x (print_elems print_value k t))
  | VObj [] => emit "{}" k
  | VObj (m :: t) =>
      String "{" (print_member print_value m (print_members print_value k t))
  end.

Definition JSON_stringify (v : value) : string := print_value v EmptyString.

(** ** [JSON.parse] *)

Definition is_json_space (c : ascii) : bool :=
  match N_of_ascii c with
  | 9 | 10 | 13 | 32 => true
  | _ => false
  end%N.

Fixpoint skip_ws (s : string) : string :=
  match s with
  | String c r => if is_json_space c then skip_ws r else s
  | EmptyString => EmptyString
  end.

Definition hex_val (c : ascii) : option N :=
  let n := N_of_ascii c in
  if ((48 <=? n) && (n <=? 57))%N then Some (n - 48)%N
  else if ((97 <=? n) && (n <=? 102))%N then Some (n - 87)%N
  else if ((65 <=? n) && (n <=? 70))%N then Some (n - 55)%N
  else None.

(** The code unit of [\uXXXX]; one above 255 is outside the modelled
    range of code units and is reported as unreadable. *)
Definition hex4 (a b c d : ascii) : option ascii :=
  match hex_val a, hex_val b, hex_val c, hex_val d with
  | Some x, Some y, Some z, Some w =>
      let n := (((x * 16 + y) * 16 + z) * 16 + w)%N in
      if (n <? 256)%N then Some (ascii_of_N n) else None
  | _, _, _, _ => None
  end.

(** The characters of a string literal after its opening quote, up to
    and including the closing quote. *)
Fixpoint parse_chars (s : string) : option (string * string) :=
  let cons_to (c : ascii) (r : option (string * string)) :=
    match r with
    | Some (str, rest) => Some (String c str, rest)
    | None => None
    end in
  match s with
  | EmptyString => None
  | String c r =>
      let n := N_of_ascii c in
      if (n =? 34)%N then Some (EmptyString, r)
      else if (n =? 92)%N then
        match r with
        | String e r' =>
            let m := N_of_ascii e in
            if (m =? 34)%N then cons_to quote_char (parse_chars r')
            else if (m =? 92)%N then cons_to "\"%char (parse_chars r')
            else if (m =? 47)%N then cons_to "/"%char (parse_chars r')
            else if (m =? 98)%N then cons_to (ascii_of_N 8) (parse_chars r')
            else if (m =? 102)%N then cons_to (ascii_of_N 12) (parse_chars r')
            else if (m =? 110)%N then cons_to (ascii_of_N 10) (parse_chars r')
            else if (m =? 114)%N then cons_to (ascii_of_N 13) (parse_chars r')
            else if (m =? 116)%N then cons_to (ascii_of_N 9) (parse_chars r')
            else if (m =? 117)%N then
              match r' with
              | String h1 (String h2 (String h3 (String h4 r''))) =>
                  match hex4 h1 h2 h3 h4 with
                  | Some u => cons_to u (parse_chars r'')
                  | None => None
                  end
              | _ => None
              end
            else None
        | EmptyString => None
        end
      else if (n <? 32)%N then None
      else cons_to c (parse_chars r)
  end.

Definition digit_of (c : ascii) : option (uint -> uint) :=
  match N_of_ascii c with
  | 48 => Some D0 | 49 => Some D1 | 50 => Some D2 | 51 => Some D3
  | 52 => Some D4 | 53 => Some D5 | 54 => Some D6 | 55 => Some D7
  | 56 => Some D8 | 57 => Some D9 | _ => None
  end%N.

(** The longest run of decimal digits at the head of [s]. *)
Fixpoint parse_digits (s : string) : uint * string :=
  match s with
  | EmptyString => (Nil, s)
  | String c r =>
      match digit_of c with
      | Some D => let '(d, rest) := parse_digits r in (D d, rest)
      | None => (Nil, s)
      end
  end.

(** A fraction or an exponent after the integer part leaves the
    integer fragment. *)
Definition starts_fraction (s : string) : bool :=
  match s with
  | String c _ =>
      let n := N_of_ascii c in
      ((n =? 46) || (n =? 101) || (n =? 69))%N
  | EmptyString => false
  end.

(** [0] or a non-empty run of digits that does not start with [0]. *)
Definition json_int_digits (d : uint) : bool :=
  uint_beq (unorm d) d.

Definition parse_number (s : string) : option (value * string) :=
  match s with
  | String c r =>
      if (N_of_ascii c =? 45)%N then
        let '(d, rest) := parse_digits r in
        if json_int_digits d && negb (starts_fraction rest)
        then Some (VNum (Z.of_int (Neg d)), rest) else None
      else
        let '(d, rest) := parse_digits s in
        if json_int_digits d && negb (starts_fraction rest)
        then Some (VNum (Z.of_int (Pos d)), rest) else None
  | EmptyString => None
  end.

Definition strip (c : ascii) (s : string) : option string :=
  match s with
  | String c' r => if Ascii.eqb c c' then Some r else None
  | EmptyString => None
  end.

Fixpoint strip_word (w s : string) : option string :=
  match w with
  | EmptyString => Some s
  | String c w' =>
      match strip c s with
      | Some r => strip_word w' r
      | None => None
      end
  end.

(** Recursive descent; [fuel] bounds the number of nested calls and is
    taken longer than the text by [JSON_parse]. *)
Fixpoint parse_value (fuel : nat) (s : string) : option (value * string) :=
  match fuel with
  | O => None
  | S fuel' =>
      let s := skip_ws s in
      match s with
      | EmptyString => None
      | String c r =>
          let n := N_of_ascii c in
          if (n =? 110)%N then
            match strip_word "ull" r with
            | Some rest => Some (VNull, rest)
            | None => None
            end
          else if (n =? 116)%N then
            match strip_word "rue" r with
            | Some rest => Some (VBool true, rest)
            | None => None
            end
          else if (n =? 102)%N then
            match strip_word "alse" r with
            | Some rest => Some (VBool false, rest)
            | None => None
            end
          else if (n =? 34)%N then
            match parse_chars r with
            | Some (str, rest) => Some (VStr str, rest)
            | None => None
            end
          else if (n =? 91)%N then
            match strip "]" (skip_ws r) with
            | Some rest => Some (VArr [], rest)
            | None =>
                match parse_value fuel' r with
                | Some (x, r1) =>
                    match parse_elems fuel' r1 with
                    | Some (t, r2) => Some (VArr (x :: t), r2)
                    | None => None
                    end
                | None => None
                end
            end
          else if (n =? 123)%N then
            match strip "}" (skip_ws r) with
            | Some rest => Some (VObj [], rest)
            | None =>
                match parse_member fuel' r with
                | Some (m, r1) =>
                    match parse_members fuel' r1 with
                    | Some (t, r2) => Some (VObj (m :: t), r2)
                    | None => None
                    end
                | None => None
                end
            end
          else parse_number s
      end
  end

with parse_elems (fuel : nat) (s : string) : option (list value * string) :=
  match fuel with
  | O => None
  | S fuel' =>
      match skip_ws s with
      | EmptyString => None
      | String c r =>
          let n := N_of_ascii c in
          if (n =? 93)%N then Some ([], r)
          else if (n =? 44)%N then
            match parse_value fuel' r with
            | Some (x, r1) =>
                match parse_elems fuel' r1 with
                | Some (t, r2) => Some (x :: t, r2)
                | None => None
                end
            | None => None
            end
          else None
      end
  end

with parse_member (fuel : nat) (s : string) : option ((string * value) * string) :=
  match fuel with
  | O => None
  | S fuel' =>
      match strip quote_char (skip_ws s) with
      | Some r =>
          match parse_chars r with
          | Some (name, r1) =>
              match strip ":" (skip_ws r1) with
              | Some r2 =>
                  match parse_value fuel' r2 with
                  | Some (v, r3) => Some ((name, v), r3)
                  | None => None
                  end
              | None => None
              end
          | None => None
          end
      | None => None
      end
  end

with parse_members (fuel : nat) (s : string)
  : option (list (string * value) * string) :=
  match fuel with
  | O => None
  | S fuel' =>
      match skip_ws s with
      | EmptyString => None
      | String c r =>
          let n := N_of_ascii c in
          if (n =? 125)%N then Some ([], r)
          else if (n =? 44)%N then
            match parse_member fuel' r with
            | Some (m, r1) =>
                match parse_members fuel' r1 with
                | Some (t, r2) => Some (m :: t, r2)
                | None => None
                end
            | None => None
            end
          else None
      end
  end.

(** [JSON.parse] on the modelled fragment of JSON: [None] stands for
    the [SyntaxError] it throws.  A text that an engine reads but the
    fragment leaves out (a number with a fraction or an exponent, an
    escape above [00ff]) is answered [None] as well; what has to hold
    of every stored text is therefore stated over any parser, see
    [JSPlatform] and [tryLoadCache_on]. *)
Definition JSON_parse (s : string) : option value :=
  match parse_value (S (String.length s)) s with
  | Some (v, rest) =>
      match skip_ws rest with
      | EmptyString => Some v
      | String _ _ => None
      end
  | None => None
  end.

(** ** [localStorage], exceptions and the state of the component *)

(** A thrown value, seen through the one thing the page reads from it:
    its [message] property, [None] when there is none. *)
Record exn : Type := Exn { message : option string }.

Definition SecurityError : exn := Exn (Some "The operation is insecure.").
Definition QuotaExceededError : exn := Exn (Some "The quota has been exceeded.").
Definition SyntaxError : exn := Exn (Some "JSON.parse: unexpected character").
Definition TypeError : exn := Exn (Some "Cannot destructure a null value").

(** The storage area: what it holds, and when it refuses.  Reads throw
    when access to the area is denied ([get_throws]); a write of [v]
    under [k] throws when [set_throws k v] (denied, or over quota). *)
Record Storage : Type := {
  items : gmap string string;
  get_throws : bool;
  set_throws : string -> string -> bool
}.

(** Modelled from the spec: the type [Graph] of [lib/citationGraph.ts],
    which is not part of the sources at hand; its shape is the output
    shape of the spec: nodes [{id, title, depth}] and links
    [{source, target}]. *)
Record Node : Type := { node_id : string; node_title : string; node_depth : nat }.
Record Link : Type := { link_source : string; link_target : string }.
Record Graph : Type := { nodes : list Node; links : list Link }.

(** The object passed to [buildCitationGraph]. *)
Record BuildOptions : Type := {
  opt_seedDois : list string;
  opt_titlesByDoi : gmap string string;
  opt_maxDepth : nat;
  opt_maxRefsPerNode : nat;
  opt_delayMs : nat
}.

(** What the page does to the outside world, in order. *)
Inductive event : Type :=
| EvGetItem (key : string)
| EvSetItem (key : string) (val : string)
| EvCrawl (opts : BuildOptions).

(** The React state of the component ([graph], [loadingGraph],
    [graphErr]), the storage area, and the log of outside calls. *)
Record World : Type := {
  graph : option value;
  loadingGraph : bool;
  graphErr : option string;
  localStorage : Storage;
  trace : list event
}.

Inductive result (A : Type) : Type :=
| Ok (a : A)
| Throw (e : exn).
Arguments Ok {A} a.
Arguments Throw {A} e.

(** A computation: it ends normally or by throwing, and changes the
    world either way. *)
Definition M (A : Type) : Type := World -> result A * World.

#[global] Instance M_ret : MRet M := fun A a w => (Ok a, w).

#[global] Instance M_bind : MBind M := fun A B f m w =>
  match m w with
  | (Ok a, w') => f a w'
  | (Throw e, w') => (Throw e, w')
  end.

Definition throw {A : Type} (e : exn) : M A := fun w => (Throw e, w).

(** [try { body } catch (e) { handler }]. *)
Definition try_catch {A : Type} (body : M A) (handler : exn -> M A) : M A :=
  fun w =>
    match body w with
    | (Ok a, w') => (Ok a, w')
    | (Throw e, w') => handler e w'
    end.

(** [try { body } finally { fin }]: [fin] runs however [body] ends. *)
Definition try_finally {A : Type} (body : M A) (fin : M unit) : M A :=
  fun w =>
    match body w with
    | (r, w') =>
        match fin w' with
        | (Ok _, w'') => (r, w'')
        | (Throw e, w'') => (Throw e, w'')
        end
    end.

(** An outside call is added to the log. *)
Definition record (ev : event) (w : World) : World :=
  {| graph := graph w; loadingGraph := loadingGraph w;
     graphErr := graphErr w; localStorage := localStorage w;
     trace := trace w ++ [ev] |}.

Definition setGraph (g : option value) : M unit := fun w =>
  (Ok tt, {| graph := g; loadingGraph := loadingGraph w;
             graphErr := graphErr w; localStorage := localStorage w;
             trace := trace w |}).

Definition setLoadingGraph (b : bool) : M unit := fun w =>
  (Ok tt, {| graph := graph w; loadingGraph := b;
             graphErr := graphErr w; localStorage := localStorage w;
             trace := trace w |}).

Definition setGraphErr (e : option string) : M unit := fun w =>
  (Ok tt, {| graph := graph w; loadingGraph := loadingGraph w;
             graphErr := e; localStorage := localStorage w;
             trace := trace w |}).

(** [localStorage.getItem(key)]. *)
Definition localStorage_getItem (key : string) : M (option string) :=
  fun w =>
    let w := record (EvGetItem key) w in
    if get_throws (localStorage w) then (Throw SecurityError, w)
    else (Ok (items (localStorage w) !! key), w).

(** The storage area once [val] is stored under [key]. *)
Definition Storage_put (key val : string) (st : Storage) : Storage :=
  {| items := <[key := val]> (items st);
     get_throws := get_throws st;
     set_throws := set_throws st |}.

Definition set_localStorage (st : Storage) (w : World) : World :=
  {| graph := graph w; loadingGraph := loadingGraph w;
     graphErr := graphErr w; localStorage := st; trace := trace w |}.

(** [localStorage.setItem(key, val)]. *)
Definition localStorage_setItem (key val : string) : M unit :=
  fun w =>
    let w := record (EvSetItem key val) w in
    if set_throws (localStorage w) key val then (Throw QuotaExceededError, w)
    else (Ok tt, set_localStorage (Storage_put key val (localStorage w)) w).

(** [JSON.parse(text)] as a computation. *)
Definition JSON_parse_or_throw (text : string) : M value :=
  match JSON_parse text with
  | Some v => mret v
  | None => throw SyntaxError
  end.

(** The destructuring [const { a, b } = v]: a [TypeError] on [null],
    the two properties otherwise. *)
Definition destructure2 (v : value) (a b : string)
  : M (option value * option value) :=
  match v with
  | VNull => throw TypeError
  | _ => mret (get_prop v a, get_prop v b)
  end.

(** A [Graph] as the JavaScript object it is. *)
Definition Node_to_value (n : Node) : value :=
  VObj [("id", VStr (node_id n)); ("title", VStr (node_title n));
        ("depth", VNum (Z.of_nat (node_depth n)))].

Definition Link_to_value (l : Link) : value :=
  VObj [("source", VStr (link_source l)); ("target", VStr (link_target l))].

Definition Graph_to_value (g : Graph) : value :=
  VObj [("nodes", VArr (map Node_to_value (nodes g)));
        ("links", VArr (map Link_to_value (links g)))].

(* ================================================================== *)
(** * Part II: [src/pages/AllPapers.tsx]                               *)
(* ================================================================== *)

Definition CACHE_KEY : string := "citationGraph:v2".

(** The type [Paper] is declared in [lib/papers.ts], which is not among
    the sources: these are the two fields of a paper that the cache
    gate reads, [None] for a field that is missing or [null]. *)
Record Paper : Type := { paper_doi : option string; paper_title : option string }.

(** The assignment [obj[key] = val] of a string to a plain object, seen
    through the own string properties of the object: the name
    [__proto__] is an accessor of [Object.prototype] whose setter
    ignores a string, so nothing is stored under it; under any other
    name the value becomes, or replaces, an own property. *)
Definition Object_set (key val : string) (obj : gmap string string)
  : gmap string string :=
  if String.eqb key "__proto__" then obj else <[key := val]> obj.

(** One turn of the loop [for (const p of papers)] that fills [dois]
    and [titles]. *)
Definition collect_paper (acc : list string * gmap string string) (p : Paper)
  : list string * gmap string string :=
  let '(dois, titles) := acc in
  match paper_doi p with
  | Some doi =>
      ( if truthy_str (Some doi) && truthy_str (Some (trim doi))
        then (dois ++ [trim doi])%list else dois,
        match paper_title p with
        | Some t =>
            if truthy_str (Some doi) && truthy_str (Some t)
            then Object_set (trim doi) t titles else titles
        | None => titles
        end )
  | None => (dois, titles)
  end.

Definition collect_papers (papers : list Paper) : list string * gmap string string :=
  fold_left collect_paper papers ([], ∅).

(** [seedDois]: every non-blank DOI of the CSV, trimmed, once. *)
Definition seedDois (papers : list Paper) : list string :=
  Array_from_Set (fst (collect_papers papers)).

(** [titlesByDoi]: the own properties of the object [titles]. *)
Definition titlesByDoi (papers : list Paper) : gmap string string :=
  snd (collect_papers papers).

(** [cacheSig = seedDois.slice().sort().join("|")]. *)
Definition cacheSig (seedDois : list string) : string :=
  Array_join "|" (Array_sort seedDois).

(** The signature of the spec, from identifiers in any order and with
    repetitions: what [cacheSig] is computed from once [seedDois] has
    passed them through a [Set]. *)
Definition signature (ids : list string) : string :=
  cacheSig (Array_from_Set ids).

(** The object [{ sig: cacheSig, graph: g }] that [saveCache] writes. *)
Definition cache_payload (sig : string) (g : value) : value :=
  VObj [("sig", VStr sig); ("graph", g)].

Definition DEFAULT_ERROR : string := "Failed to build citation network".

(** The options [buildOrLoad] passes to the crawler. *)
Definition build_options (seedDois : list string)
    (titlesByDoi : gmap string string) : BuildOptions :=
  {| opt_seedDois := seedDois;
     opt_titlesByDoi := titlesByDoi;
     opt_maxDepth := 3;
     opt_maxRefsPerNode := 30;
     opt_delayMs := 140 |}.

Section AllPapers.

(** [buildCitationGraph] of [lib/citationGraph.ts] is not among the
    sources: the crawler is a parameter.  Its outcome depends on the
    network, so it is a function of its options and of everything
    that happened before the call. *)
Variable buildCitationGraph : BuildOptions -> list event -> result Graph.

(** [await buildCitationGraph(opts)]: the call is logged, and its
    outcome is a graph or a thrown value. *)
Definition await_buildCitationGraph (opts : BuildOptions) : M Graph :=
  fun w =>
    match buildCitationGraph opts (trace w) with
    | Ok g => (Ok g, record (EvCrawl opts) w)
    | Throw e => (Throw e, record (EvCrawl opts) w)
    end.

(** [tryLoadCache]; [None] is the [null] it returns. *)
Definition tryLoadCache (cacheSig : string) : M (option value) :=
  try_catch
    (raw ← localStorage_getItem CACHE_KEY;
     match raw with
     | None => mret None
     | Some text =>
         if negb (truthy_str (Some text)) then mret None
         else
           parsed ← JSON_parse_or_throw text;
           '(sig, graph) ← destructure2 parsed "sig" "graph";
           if strict_eq_str sig cacheSig
              && truthy (get_prop_opt graph "nodes")
              && truthy (get_prop_opt graph "links")
           then mret graph
           else mret None
     end)
    (fun _ => mret None).

(** [saveCache]: the write, and a [catch] that ignores what it threw. *)
Definition saveCache (cacheSig : string) (g : value) : M unit :=
  try_catch
    (localStorage_setItem CACHE_KEY (JSON_stringify (cache_payload cacheSig g)))
    (fun _ => mret tt).

(** [e?.message || "Failed to build citation network"]. *)
Definition error_message (e : exn) : string :=
  match message e with
  | Some m => if truthy_str (Some m) then m else DEFAULT_ERROR
  | None => DEFAULT_ERROR
  end.

(** [buildOrLoad(force)], in the render where the seeds are
    [seedDois] and the title hints [titlesByDoi].  The early
    [return] after a cache hit is the [true] of [hit]. *)
Definition buildOrLoad (seedDois : list string)
    (titlesByDoi : gmap string string) (force : bool) : M unit :=
  let cacheSig := cacheSig seedDois in
  if Nat.eqb (List.length seedDois) 0 then
    setGraph None ;;
    setGraphErr None
  else
    try_finally
      (try_catch
         (setLoadingGraph true ;;
          setGraphErr None ;;
          hit ← (if negb force then
                   cached ← tryLoadCache cacheSig;
                   if truthy cached then setGraph cached ;; mret true
                   else mret false
                 else mret false);
          if (hit : bool) then mret tt
          else
            g ← await_buildCitationGraph (build_options seedDois titlesByDoi);
            setGraph (Some (Graph_to_value g)) ;;
            saveCache cacheSig (Graph_to_value g))
         (fun e => setGraphErr (Some (error_message e))))
      (setLoadingGraph false).

End AllPapers.

(* ================================================================== *)
(** * Part III: notions used to state the properties                  *)
(* ================================================================== *)

(** ** Measures and conditions for the parser *)

(** The text [k] after a number does not prolong it: it is empty or
    starts with something else than a digit, a point or an exponent. *)
Definition ends_number (k : string) : bool :=
  match k with
  | EmptyString => true
  | String c _ =>
      match digit_of c with
      | Some _ => false
      | None => negb (starts_fraction k)
      end
  end.

(** The fuel the parse of a value's text takes: the depth of the calls
    of [parse_value], [parse_elems], [parse_member] and
    [parse_members] among themselves. *)
Definition need_elems (nv : value -> nat) : list value -> nat :=
  fix go (l : list value) : nat :=
    match l with
    | [] => 1
    | y :: l' => S (Nat.max (nv y) (go l'))
    end.

Definition need_members (nv : value -> nat) : list (string * value) -> nat :=
  fix go (l : list (string * value)) : nat :=
    match l with
    | [] => 1
    | m :: l' => S (Nat.max (S (nv (snd m))) (go l'))
    end.

Fixpoint need (v : value) : nat :=
  match v with
  | VArr (x :: t) => S (Nat.max (need x) (need_elems need t))
  | VObj (m :: t) => S (Nat.max (S (need (snd m))) (need_members need t))
  | _ => 1
  end.

(** The first character of the text of a value: there is one, and it
    is neither white space nor a closing bracket. *)
Definition starts_value (s : string) : Prop :=
  match s with
  | String c _ =>
      is_json_space c = false /\ (N_of_ascii c =? 93)%N = false
  | EmptyString => False
  end.

(** Parsing the text of [v], with whatever follows, gives [v] and
    what follows. *)
Definition round_trips (v : value) : Prop :=
  forall fuel k, need v <= fuel -> ends_number k = true ->
    parse_value fuel (print_value v k) = Some (v, k).

(** The text of [v] is at least as long as the fuel its parse takes. *)
Definition fits (v : value) : Prop :=
  forall k, need v + String.length k <= String.length (print_value v k).

(** ** The cache gate as a function of the storage area *)

(** What a read of the cache amounts to: the stored graph when the
    area is readable and holds a text that parses to an object whose
    [sig] is the signature and whose [graph] has truthy [nodes] and
    [links]. *)
Definition cache_lookup (sig : string) (st : Storage) : option value :=
  if get_throws st then None
  else
    match items st !! CACHE_KEY with
    | None => None
    | Some text =>
        match JSON_parse text with
        | None => None
        | Some parsed =>
            if strict_eq_str (get_prop parsed "sig") sig
               && truthy (get_prop_opt (get_prop parsed "graph") "nodes")
               && truthy (get_prop_opt (get_prop parsed "graph") "links")
            then get_prop parsed "graph"
            else None
        end
    end.

(** A storage area that takes every read and every write. *)
Definition storage_works (st : Storage) : Prop :=
  get_throws st = false /\ forall k v, set_throws st k v = false.

(** The world in which the crawl starts: loading, no error, and the
    read of the cache logged unless [force] skipped it. *)
Definition crawl_start (force : bool) (w : World) : World :=
  {| graph := graph w; loadingGraph := true; graphErr := None;
     localStorage := localStorage w;
     trace := if force then trace w else trace w ++ [EvGetItem CACHE_KEY] |}.

(** ** Sample inputs *)

(** An empty storage area that works. *)
Definition fresh_storage : Storage :=
  {| items := ∅; get_throws := false; set_throws := fun _ _ => false |}.

(** A storage area that refuses every write (private mode, quota). *)
Definition full_storage : Storage :=
  {| items := ∅; get_throws := false; set_throws := fun _ _ => true |}.

(** The component just mounted, on the storage area [st]. *)
Definition world_of (st : Storage) : World :=
  {| graph := None; loadingGraph := false; graphErr := None;
     localStorage := st; trace := [] |}.

Definition sample_graph : Graph :=
  {| nodes := [ {| node_id := "A"; node_title := "Paper A"; node_depth := 0 |};
                {| node_id := "C"; node_title := "Paper C"; node_depth := 1 |} ];
     links := [ {| link_source := "A"; link_target := "C" |} ] |}.

Definition empty_graph : Graph := {| nodes := []; links := [] |}.

(** A crawler that always returns [g], and one that always throws [e]. *)
Definition crawl_returns (g : Graph) : BuildOptions -> list event -> result Graph :=
  fun _ _ => Ok g.

Definition crawl_throws (e : exn) : BuildOptions -> list event -> result Graph :=
  fun _ _ => Throw e.

(** A storage area holding, under the cache key, the entry for
    signature [sig] and graph [g]. *)
Definition storage_with_entry (sig : string) (g : value) : Storage :=
  Storage_put CACHE_KEY (JSON_stringify (cache_payload sig g)) fresh_storage.

(** ** The read of the cache over any JavaScript engine *)

(** What [tryLoadCache] asks of the engine, with nothing fixed about
    the answers: the values, [JSON.parse] ([None] when it throws),
    whether a value is [null], the read of a property of a value that
    is not [null] ([None] is [undefined]), [ToBoolean], and strict
    equality with a string. *)
Record JSPlatform : Type := {
  jsval : Type;
  js_parse : string -> option jsval;
  js_null : jsval -> bool;
  js_prop : jsval -> string -> option jsval;
  js_truthy : option jsval -> bool;
  js_eq_string : option jsval -> string -> bool
}.

(** Optional chaining [v?.k] over an engine. *)
Definition js_prop_opt (J : JSPlatform) (v : option (jsval J)) (k : string)
  : option (jsval J) :=
  match v with
  | None => None
  | Some v' => if js_null J v' then None else js_prop J v' k
  end.

(** [tryLoadCache] over an engine [J]; [None] is the [null] it
    returns. *)
Definition tryLoadCache_on (J : JSPlatform) (cacheSig : string)
  : M (option (jsval J)) :=
  try_catch
    (raw ← localStorage_getItem CACHE_KEY;
     match raw with
     | None => mret None
     | Some text =>
         if negb (truthy_str (Some text)) then mret None
         else
           parsed ← match js_parse J text with
                    | Some v => mret v
                    | None => throw SyntaxError
                    end;
           '(sig, graph) ← (if js_null J parsed then throw TypeError
                            else mret (js_prop J parsed "sig",
                                       js_prop J parsed "graph"));
           if js_eq_string J sig cacheSig
              && js_truthy J (js_prop_opt J graph "nodes")
              && js_truthy J (js_prop_opt J graph "links")
           then mret graph
           else mret None
     end)
    (fun _ => mret None).

(** The engine of Part I. *)
Definition model_platform : JSPlatform :=
  {| jsval := value;
     js_parse := JSON_parse;
     js_null := fun v => match v with VNull => true | _ => false end;
     js_prop := get_prop;
     js_truthy := truthy;
     js_eq_string := strict_eq_str |}.

(* ================================================================== *)
(** * Part III-b: the rest of the page                                 *)
(* ================================================================== *)

(** ** What the page renders of the citation network *)

(** The three blocks of the JSX under "Citation Network": the banner
    shown while [loadingGraph], the error box shown when [graphErr] is
    truthy, and the network, shown when
    [graph && !loadingGraph && !graphErr]. *)
Definition shows_loading (w : World) : bool := loadingGraph w.

Definition shows_error (w : World) : bool := truthy_str (graphErr w).

Definition shows_network (w : World) : bool :=
  truthy (graph w) && negb (loadingGraph w) && negb (truthy_str (graphErr w)).

(** ** The effect that rebuilds when the signature changes *)

(** [useEffect(() => { buildOrLoad(false) }, [cacheSig])] at a render
    whose papers are [papers]: React runs the effect after the first
    render ([prev] is [None]) and after a render whose [cacheSig]
    differs from the one the effect last ran for ([prev] holds it). *)
Definition useEffect_cacheSig
    (buildCitationGraph : BuildOptions -> list event -> result Graph)
    (prev : option string) (papers : list Paper) : M unit :=
  if bool_decide (prev = Some (cacheSig (seedDois papers))) then mret tt
  else buildOrLoad buildCitationGraph (seedDois papers) (titlesByDoi papers) false.

(** An identifier free of the separator of [cacheSig]. *)
Fixpoint has_bar (s : string) : bool :=
  match s with
  | EmptyString => false
  | String c r => (N_of_ascii c =? 124)%N || has_bar r
  end.

(** The part of a text before its first separator, and the part after
    it when there is one. *)
Fixpoint before_bar (s : string) : string :=
  match s with
  | EmptyString => EmptyString
  | String c r =>
      if (N_of_ascii c =? 124)%N then EmptyString else String c (before_bar r)
  end.

Fixpoint after_bar (s : string) : option string :=
  match s with
  | EmptyString => None
  | String c r => if (N_of_ascii c =? 124)%N then Some r else after_bar r
  end.

(** ** Concepts: the counts, the filter and the toggle *)

(** [Map.prototype.set(c, (m.get(c) || 0) + 1)] on a map kept in
    insertion order: a key already there keeps its place. *)
Fixpoint Map_bump (m : list (string * nat)) (c : string) : list (string * nat) :=
  match m with
  | [] => [(c, 1)]
  | (k, n) :: rest =>
      if String.eqb k c then (k, n + 1) :: rest
      else (k, n) :: Map_bump rest c
  end.

(** One step of [entries.sort((a, b) => b[1] - a[1])]: [x], which
    stood before every entry of [l], goes behind the entries with a
    strictly greater count and before the others.  [Array.prototype.sort]
    is stable, so entries with equal counts keep their order. *)
Fixpoint insert_by_count (x : string * nat) (l : list (string * nat))
  : list (string * nat) :=
  match l with
  | [] => [x]
  | y :: l' =>
      if Nat.ltb (snd x) (snd y) then y :: insert_by_count x l'
      else x :: y :: l'
  end.

Definition sort_by_count (l : list (string * nat)) : list (string * nat) :=
  foldr insert_by_count [] l.

(** [m.get(c) || 0]: the count the map holds for [c]. *)
Fixpoint count_of (m : list (string * nat)) (c : string) : nat :=
  match m with
  | [] => 0
  | (k, n) :: rest => if String.eqb k c then n else count_of rest c
  end.

(** How many times [c] stands in [l]. *)
Definition occurrences (l : list string) (c : string) : nat :=
  List.length (List.filter (String.eqb c) l).

(** [handleConceptToggle]: the next set of active concepts. *)
Definition handleConceptToggle (concept : string) (prev : gset string)
  : gset string :=
  if bool_decide (concept ∈ prev) then prev ∖ {[concept]}
  else prev ∪ {[concept]}.

Section Concepts.

(** The type [Paper] of [lib/papers.ts] is not among the sources: the
    concept code is modelled over any type of papers with its field
    [concepts], [None] when the field is missing. *)
Variable P : Type.
Variable concepts : P -> option (list string).

(** The two nested [forEach] of [topConcepts]: every concept of every
    paper is counted, under the name as written (the lower-cased name
    the loop computes is not used). *)
Definition count_paper (m : list (string * nat)) (paper : P) : list (string * nat) :=
  match concepts paper with
  | Some cs => fold_left Map_bump cs m
  | None => m
  end.

Definition conceptCounts (papers : list P) : list (string * nat) :=
  fold_left count_paper papers [].

(** [topConcepts]: the names of the ten most frequent concepts. *)
Definition topConcepts (papers : list P) : list string :=
  fst <$> take 10 (sort_by_count (conceptCounts papers)).

(** [p.concepts?.some(concept => activeConcepts.has(concept))]. *)
Definition has_active_concept (activeConcepts : gset string) (p : P) : bool :=
  match concepts p with
  | Some cs => existsb (fun c => bool_decide (c ∈ activeConcepts)) cs
  | None => false
  end.

(** [filteredPapers]. *)
Definition filteredPapers (papers : list P) (activeConcepts : gset string) : list P :=
  if Nat.eqb (size activeConcepts) 0 then papers
  else List.filter (has_active_concept activeConcepts) papers.

(** All the concepts of all the papers, in the order the loops meet
    them. *)
Definition all_concepts (papers : list P) : list string :=
  List.concat (map (fun p => default [] (concepts p)) papers).

(** The names in the order of the sorted entries, before the cut to
    ten. *)
Definition ranked_concepts (papers : list P) : list string :=
  fst <$> sort_by_count (conceptCounts papers).

End Concepts.

(* ================================================================== *)
(** * Part IV: properties                                              *)
(* ================================================================== *)

(** ** The order on strings and the sorted copy *)

Lemma ascii_compare_lt_trans (a b c : ascii) :
  Ascii.compare a b = Lt -> Ascii.compare b c = Lt -> Ascii.compare a c = Lt.
Proof.
  unfold Ascii.compare. rewrite !N.compare_lt_iff. lia.
Qed.

Lemma string_compare_refl (s : string) : String.compare s s = Eq.
Proof.
  pose proof (String.compare_antisym s s) as H.
  destruct (String.compare s s); simpl in H; congruence.
Qed.

Lemma string_compare_lt_trans (a b c : string) :
  String.compare a b = Lt -> String.compare b c = Lt -> String.compare a c = Lt.
Proof.
  revert b c. induction a as [|x a IH]; intros [|y b] [|z c]; simpl; try congruence.
  destruct (Ascii.compare x y) eqn:Hxy; try congruence;
    destruct (Ascii.compare y z) eqn:Hyz; try congruence.
  - apply Ascii.compare_eq_iff in Hxy, Hyz. subst.
    assert (Hz : Ascii.compare z z = Eq).
    { pose proof (Ascii.compare_antisym z z) as Hz.
      destruct (Ascii.compare z z); simpl in Hz; congruence. }
    rewrite Hz. apply IH.
  - apply Ascii.compare_eq_iff in Hxy. subst. rewrite Hyz. reflexivity.
  - apply Ascii.compare_eq_iff in Hyz. subst. rewrite Hxy. reflexivity.
  - rewrite (ascii_compare_lt_trans _ _ _ Hxy Hyz). reflexivity.
Qed.

#[global] Instance str_le_trans : Transitive str_le.
Proof.
  intros a b c. unfold str_le, String.leb.
  destruct (String.compare a b) eqn:Hab; try congruence;
    destruct (String.compare b c) eqn:Hbc; try congruence; intros _ _.
  - apply String.compare_eq_iff in Hab, Hbc. subst. now rewrite string_compare_refl.
  - apply String.compare_eq_iff in Hab. subst. now rewrite Hbc.
  - apply String.compare_eq_iff in Hbc. subst. now rewrite Hab.
  - now rewrite (string_compare_lt_trans _ _ _ Hab Hbc).
Qed.

#[global] Instance str_le_total : Total str_le.
Proof. intros a b. apply String.leb_total. Qed.

#[global] Instance str_le_antisym : AntiSymm eq str_le.
Proof. intros a b Hab Hba. now apply String.leb_antisym. Qed.

(** Whatever algorithm the engine runs, a sorted rearrangement of [l]
    is the list [Array_sort] returns. *)
Lemma Array_sort_unique (l sorted : list string) :
  Sorted str_le sorted -> sorted ≡ₚ l -> sorted = Array_sort l.
Proof.
  intros Hs Hp. apply (Sorted_unique str_le); [done| |].
  - apply Sorted_merge_sort, _.
  - rewrite Hp. symmetry. apply merge_sort_Permutation.
Qed.

Lemma Array_sort_perm_eq (l1 l2 : list string) :
  l1 ≡ₚ l2 -> Array_sort l1 = Array_sort l2.
Proof.
  intros Hp. apply Array_sort_unique.
  - apply Sorted_merge_sort, _.
  - unfold Array_sort. now rewrite merge_sort_Permutation.
Qed.

(** ** [Array.from(new Set(_))] *)

Lemma Set_add_fold_spec (arr seen : list string) :
  NoDup seen ->
  NoDup (fold_left Set_add arr seen) /\
  (forall x, x ∈ fold_left Set_add arr seen <-> x ∈ seen \/ x ∈ arr).
Proof.
  revert seen. induction arr as [|a arr IH]; intros seen Hnd; simpl.
  - split; [done|]. intros x. rewrite elem_of_nil. tauto.
  - assert (Hnd' : NoDup (Set_add seen a)).
    { unfold Set_add. case_bool_decide; [done|].
      apply NoDup_app. split_and!; [done| |apply NoDup_singleton].
      intros x Hx Hx'. apply list_elem_of_singleton in Hx'. now subst. }
    destruct (IH _ Hnd') as [H1 H2]. split; [done|].
    intros x. rewrite H2, elem_of_cons. unfold Set_add.
    case_bool_decide as Hin.
    + split; [intros [?|?]; auto|intros [?|[->|?]]; auto].
    + rewrite elem_of_app, list_elem_of_singleton. tauto.
Qed.

Lemma Array_from_Set_NoDup (arr : list string) : NoDup (Array_from_Set arr).
Proof. apply Set_add_fold_spec, NoDup_nil_2. Qed.

Lemma Array_from_Set_elem (arr : list string) (x : string) :
  x ∈ Array_from_Set arr <-> x ∈ arr.
Proof.
  unfold Array_from_Set.
  destruct (Set_add_fold_spec arr [] (NoDup_nil_2)) as [_ H].
  rewrite H, elem_of_nil. tauto.
Qed.

(** C1. Two collections of seed identifiers with the same elements, in
    any order and with any repetition, have the same signature. *)
Theorem signature_set_equal (S1 S2 : list string) :
  (forall x, x ∈ S1 <-> x ∈ S2) -> signature S1 = signature S2.
Proof.
  intros Heq. unfold signature, cacheSig. f_equal.
  apply Array_sort_perm_eq, NoDup_Permutation; auto using Array_from_Set_NoDup.
  intros x. now rewrite !Array_from_Set_elem.
Qed.

Lemma signature_set_equal_witness :
  signature ["b"; "a"; "b"] = signature ["a"; "b"; "a"; "a"].
Proof.
  apply (signature_set_equal ["b"; "a"; "b"] ["a"; "b"; "a"; "a"]).
  intros x. rewrite !elem_of_cons, !elem_of_nil. tauto.
Defined.

(** The signature of the page is the signature of the DOIs the loop
    over the papers collects. *)
Lemma cacheSig_seedDois (papers : list Paper) :
  cacheSig (seedDois papers) = signature (fst (collect_papers papers)).
Proof. reflexivity. Qed.

Lemma Array_sort_sorted (l : list string) : Sorted str_le (Array_sort l).
Proof. apply Sorted_merge_sort, _. Qed.

Example cacheSig_sorts_and_joins : cacheSig ["B"; "A"; "a"; "AB"] = "A|AB|B|a".
Proof. vm_compute. reflexivity. Qed.

Example seedDois_trims_and_dedups :
  seedDois [ {| paper_doi := Some " 10.1/x "; paper_title := Some "X" |};
             {| paper_doi := Some "   "; paper_title := Some "blank" |};
             {| paper_doi := None; paper_title := Some "none" |};
             {| paper_doi := Some "10.1/x"; paper_title := None |};
             {| paper_doi := Some "10.1/a"; paper_title := None |} ]
  = ["10.1/x"; "10.1/a"].
Proof. vm_compute. reflexivity. Qed.

(** ** [JSON.parse] inverts [JSON.stringify] *)

Lemma value_ind' (P : value -> Prop) :
  P VNull -> (forall b, P (VBool b)) -> (forall n, P (VNum n)) ->
  (forall s, P (VStr s)) ->
  (forall l, Forall P l -> P (VArr l)) ->
  (forall l, Forall (fun m => P (snd m)) l -> P (VObj l)) ->
  forall v, P v.
Proof.
  intros Hnull Hbool Hnum Hstr Harr Hobj.
  fix IH 1.
  intros [ |b|n|s|l|l]; [apply Hnull|apply Hbool|apply Hnum|apply Hstr| |].
  - apply Harr. induction l as [|x l IHl]; constructor; [apply IH|exact IHl].
  - apply Hobj. induction l as [|[n x] l IHl]; constructor; [apply IH|exact IHl].
Qed.

Lemma parse_digits_print (d : uint) (k : string) :
  ends_number k = true -> parse_digits (print_digits d k) = (d, k).
Proof.
  intros Hk. induction d; simpl; try (rewrite IHd; reflexivity).
  destruct k as [|c k]; [reflexivity|]. simpl in *.
  destruct (digit_of c); [discriminate|reflexivity].
Qed.

Lemma print_digits_head (d : uint) (k : string) :
  d <> Nil ->
  exists c r, print_digits d k = String c r /\ is_Some (digit_of c).
Proof.
  destruct d; [congruence|..]; intros _; simpl; eexists _, _; (split; [reflexivity|]);
    vm_compute; eauto.
Qed.

Lemma to_int_normal (n : Z) :
  match Z.to_int n with
  | Pos d => unorm d = d
  | Neg d => unorm d = d /\ d <> Nil
  end.
Proof.
  pose proof (DecimalZ.to_of (Z.to_int n)) as H.
  rewrite DecimalZ.of_to in H.
  destruct (Z.to_int n) as [d|d]; simpl in H.
  - congruence.
  - unfold unorm. destruct (nzhead d) eqn:Hd; inversion H; subst; split; congruence.
Qed.

Lemma json_int_digits_normal (d : uint) : unorm d = d -> json_int_digits d = true.
Proof.
  intros H. unfold json_int_digits. rewrite H. now apply internal_uint_dec_lb.
Qed.

Lemma ends_number_fraction (k : string) :
  ends_number k = true -> starts_fraction k = false.
Proof.
  destruct k as [|c k]; [reflexivity|]. unfold ends_number.
  destruct (digit_of c); [discriminate|]. now intros ->%negb_true_iff.
Qed.

Lemma digit_not_minus (c : ascii) :
  is_Some (digit_of c) -> (N_of_ascii c =? 45)%N = false.
Proof.
  unfold digit_of. intros [D H]. destruct (N.eqb_spec (N_of_ascii c) 45) as [E|]; [|reflexivity].
  rewrite E in H. discriminate.
Qed.

Lemma parse_number_print_int (n : Z) (k : string) :
  ends_number k = true -> parse_number (print_int n k) = Some (VNum n, k).
Proof.
  intros Hk. unfold print_int.
  pose proof (to_int_normal n) as Hn. pose proof (DecimalZ.of_to n) as Hof.
  destruct (Z.to_int n) as [d|d].
  - destruct (print_digits_head d k) as (c & r & Hpr & Hc).
    { intros ->. discriminate Hn. }
    pose proof (parse_digits_print d k Hk) as Hpd.
    rewrite Hpr in *. unfold parse_number.
    rewrite (digit_not_minus c Hc), Hpd.
    rewrite (json_int_digits_normal d Hn), (ends_number_fraction k Hk).
    simpl in *. now rewrite Hof.
  - destruct Hn as [Hn _]. simpl.
    rewrite (parse_digits_print d k Hk).
    rewrite (json_int_digits_normal d Hn), (ends_number_fraction k Hk).
    simpl in *. now rewrite Hof.
Qed.

Lemma parse_chars_print_char (c : ascii) (k : string) :
  parse_chars (print_char c k) =
  match parse_chars k with
  | Some (str, rest) => Some (String c str, rest)
  | None => None
  end.
Proof.
  destruct c as [[] [] [] [] [] [] [] []]; reflexivity.
Qed.

Lemma parse_chars_print_chars (s k : string) :
  parse_chars (print_chars s k) = Some (s, k).
Proof.
  induction s as [|c s IH]; [reflexivity|].
  simpl. now rewrite parse_chars_print_char, IH.
Qed.

Lemma digit_starts_value (c : ascii) (r : string) :
  is_Some (digit_of c) -> starts_value (String c r).
Proof.
  intros [D H]. destruct c as [[] [] [] [] [] [] [] []]; try discriminate H;
    split; reflexivity.
Qed.

Lemma print_value_starts (v : value) (k : string) : starts_value (print_value v k).
Proof.
  destruct v as [ |[]|n|s|[|x l]|[|m l]]; try (split; reflexivity).
  simpl. unfold print_int.
  pose proof (to_int_normal n) as Hn.
  destruct (Z.to_int n) as [d|d]; [|split; reflexivity].
  destruct (print_digits_head d k) as (c & r & -> & Hc).
  { intros ->. discriminate Hn. }
  now apply digit_starts_value.
Qed.

Lemma skip_ws_starts (s : string) : starts_value s -> skip_ws s = s.
Proof. destruct s as [|c r]; [done|]. intros [H _]. simpl. now rewrite H. Qed.

Lemma strip_bracket_starts (s : string) : starts_value s -> strip "]" s = None.
Proof.
  destruct s as [|c r]; [done|]. intros [_ H]. unfold strip.
  destruct (Ascii.eqb_spec "]" c) as [<-|]; [discriminate H|reflexivity].
Qed.

Lemma parse_value_number (fuel : nat) (n : Z) (k : string) :
  ends_number k = true ->
  parse_value (S fuel) (print_int n k) = Some (VNum n, k).
Proof.
  intros Hk. rewrite <- (parse_number_print_int n k Hk).
  unfold print_int. pose proof (to_int_normal n) as Hn.
  destruct (Z.to_int n) as [d|d]; [|reflexivity].
  destruct (print_digits_head d k) as (c & r & -> & [D Hc]).
  { intros ->. discriminate Hn. }
  destruct c as [[] [] [] [] [] [] [] []]; try discriminate Hc; reflexivity.
Qed.

(** One step of each parser, on the character it dispatches on. *)
Lemma parse_value_array (fuel : nat) (r : string) :
  parse_value (S fuel) (String "[" r) =
  match strip "]" (skip_ws r) with
  | Some rest => Some (VArr [], rest)
  | None =>
      match parse_value fuel r with
      | Some (x, r1) =>
          match parse_elems fuel r1 with
          | Some (t, r2) => Some (VArr (x :: t), r2)
          | None => None
          end
      | None => None
      end
  end.
Proof. reflexivity. Qed.

Lemma parse_value_object (fuel : nat) (r : string) :
  parse_value (S fuel) (String "{" r) =
  match strip "}" (skip_ws r) with
  | Some rest => Some (VObj [], rest)
  | None =>
      match parse_member fuel r with
      | Some (m, r1) =>
          match parse_members fuel r1 with
          | Some (t, r2) => Some (VObj (m :: t), r2)
          | None => None
          end
      | None => None
      end
  end.
Proof. reflexivity. Qed.

Lemma parse_elems_comma (fuel : nat) (r : string) :
  parse_elems (S fuel) (String "," r) =
  match parse_value fuel r with
  | Some (x, r1) =>
      match parse_elems fuel r1 with
      | Some (t, r2) => Some (x :: t, r2)
      | None => None
      end
  | None => None
  end.
Proof. reflexivity. Qed.

Lemma parse_members_comma (fuel : nat) (r : string) :
  parse_members (S fuel) (String "," r) =
  match parse_member fuel r with
  | Some (m, r1) =>
      match parse_members fuel r1 with
      | Some (t, r2) => Some (m :: t, r2)
      | None => None
      end
  | None => None
  end.
Proof. reflexivity. Qed.

Lemma parse_member_quoted (fuel : nat) (r : string) :
  parse_member (S fuel) (String quote_char r) =
  match parse_chars r with
  | Some (name, r1) =>
      match strip ":" (skip_ws r1) with
      | Some r2 =>
          match parse_value fuel r2 with
          | Some (v, r3) => Some ((name, v), r3)
          | None => None
          end
      | None => None
      end
  | None => None
  end.
Proof. reflexivity. Qed.

Lemma ends_number_print_elems (k : string) (l : list value) :
  ends_number (print_elems print_value k l) = true.
Proof. destruct l; reflexivity. Qed.

Lemma ends_number_print_members (k : string) (l : list (string * value)) :
  ends_number (print_members print_value k l) = true.
Proof. destruct l; reflexivity. Qed.

Lemma parse_elems_print (l : list value) :
  Forall round_trips l ->
  forall fuel k, need_elems need l <= fuel ->
    parse_elems fuel (print_elems print_value k l) = Some (l, k).
Proof.
  induction 1 as [|y l Hy _ IH]; intros [|fuel] k Hfuel; simpl in Hfuel; try lia.
  - reflexivity.
  - change (print_elems print_value k (y :: l))
      with (String "," (print_value y (print_elems print_value k l))).
    rewrite parse_elems_comma, Hy, IH; [reflexivity|lia|lia|].
    apply ends_number_print_elems.
Qed.

Lemma parse_member_print (m : string * value) :
  round_trips (snd m) ->
  forall fuel k, S (need (snd m)) <= fuel -> ends_number k = true ->
    parse_member fuel (print_member print_value m k) = Some (m, k).
Proof.
  intros Hm [|fuel] k Hfuel Hk; [lia|].
  change (print_member print_value m k)
    with (String quote_char
            (print_chars (fst m) (String ":" (print_value (snd m) k)))).
  rewrite parse_member_quoted, parse_chars_print_chars. cbv beta iota.
  change (strip ":" (skip_ws (String ":" (print_value (snd m) k))))
    with (Some (print_value (snd m) k)). cbv beta iota.
  rewrite Hm; [now destruct m|lia|done].
Qed.

Lemma parse_members_print (l : list (string * value)) :
  Forall (fun m => round_trips (snd m)) l ->
  forall fuel k, need_members need l <= fuel ->
    parse_members fuel (print_members print_value k l) = Some (l, k).
Proof.
  induction 1 as [|m l Hm _ IH]; intros [|fuel] k Hfuel; simpl in Hfuel; try lia.
  - reflexivity.
  - change (print_members print_value k (m :: l))
      with (String "," (print_member print_value m (print_members print_value k l))).
    rewrite parse_members_comma, (parse_member_print m Hm), IH; [reflexivity|lia|lia|].
    apply ends_number_print_members.
Qed.

Lemma need_pos (v : value) : 1 <= need v.
Proof. destruct v as [ | | | |[|x t]|[|m t]]; simpl; lia. Qed.

Lemma parse_print_value (v : value) : round_trips v.
Proof.
  induction v as [ |b|n|s|l IH|l IH] using value_ind'; intros fuel k Hfuel Hk;
    (destruct fuel as [|fuel];
     [match type of Hfuel with need ?u <= _ => pose proof (need_pos u) end; lia|]).
  - reflexivity.
  - destruct b; reflexivity.
  - now apply parse_value_number.
  - change (print_value (VStr s) k) with (String quote_char (print_chars s k)).
    change (parse_value (S fuel) (String quote_char (print_chars s k)))
      with (match parse_chars (print_chars s k) with
            | Some (str, rest) => Some (VStr str, rest)
            | None => None
            end).
    now rewrite parse_chars_print_chars.
  - destruct l as [|x t]; [reflexivity|].
    apply Forall_cons in IH as [Hx Ht]. simpl in Hfuel.
    change (print_value (VArr (x :: t)) k)
      with (String "[" (print_value x (print_elems print_value k t))).
    rewrite parse_value_array.
    rewrite skip_ws_starts, strip_bracket_starts by apply print_value_starts.
    cbv beta iota. rewrite Hx, (parse_elems_print t Ht); [reflexivity|lia|lia|].
    apply ends_number_print_elems.
  - destruct l as [|m t]; [reflexivity|].
    apply Forall_cons in IH as [Hm Ht]. simpl in Hfuel.
    change (print_value (VObj (m :: t)) k)
      with (String "{" (print_member print_value m (print_members print_value k t))).
    rewrite parse_value_object.
    change (strip "}" (skip_ws (print_member print_value m (print_members print_value k t))))
      with (@None string). cbv beta iota.
    rewrite (parse_member_print m Hm), (parse_members_print t Ht); [reflexivity|lia|lia|].
    apply ends_number_print_members.
Qed.

(** The text of a value is at least as long as the fuel its parse
    needs. *)
Lemma print_digits_length (d : uint) (k : string) :
  String.length k <= String.length (print_digits d k).
Proof. induction d; simpl; lia. Qed.

Lemma print_int_length (n : Z) (k : string) :
  1 + String.length k <= String.length (print_int n k).
Proof.
  unfold print_int. pose proof (to_int_normal n) as Hn.
  destruct (Z.to_int n) as [d|d].
  - destruct d; [discriminate Hn|..]; simpl;
      match goal with |- context [print_digits ?d' k] =>
        pose proof (print_digits_length d' k) end; lia.
  - simpl. pose proof (print_digits_length d k). lia.
Qed.

Lemma print_char_length (c : ascii) (k : string) :
  1 + String.length k <= String.length (print_char c k).
Proof. unfold print_char. repeat case_match; simpl; lia. Qed.

Lemma print_chars_length (s k : string) :
  1 + String.length k <= String.length (print_chars s k).
Proof.
  induction s as [|c s IH]; simpl; [lia|].
  pose proof (print_char_length c (print_chars s k)). lia.
Qed.

Lemma print_elems_length (l : list value) (k : string) :
  Forall fits l ->
  need_elems need l + String.length k <= String.length (print_elems print_value k l).
Proof.
  induction 1 as [|y l Hy _ IH]; [simpl; lia|].
  change (print_elems print_value k (y :: l))
    with (String "," (print_value y (print_elems print_value k l))).
  change (need_elems need (y :: l))
    with (S (Nat.max (need y) (need_elems need l))).
  specialize (Hy (print_elems print_value k l)).
  cbn [String.length]. lia.
Qed.

Lemma print_member_length (m : string * value) (k : string) :
  fits (snd m) ->
  S (need (snd m)) + String.length k <= String.length (print_member print_value m k).
Proof.
  intros Hm. unfold print_member, print_string. simpl.
  pose proof (print_chars_length (fst m) (String ":" (print_value (snd m) k))) as H.
  specialize (Hm k). simpl in H. lia.
Qed.

Lemma print_members_length (l : list (string * value)) (k : string) :
  Forall (fun m => fits (snd m)) l ->
  need_members need l + String.length k <= String.length (print_members print_value k l).
Proof.
  induction 1 as [|m l Hm _ IH]; [simpl; lia|].
  change (print_members print_value k (m :: l))
    with (String "," (print_member print_value m (print_members print_value k l))).
  change (need_members need (m :: l))
    with (S (Nat.max (S (need (snd m))) (need_members need l))).
  pose proof (print_member_length m (print_members print_value k l) Hm).
  cbn [String.length]. lia.
Qed.

Lemma print_value_length (v : value) : fits v.
Proof.
  induction v as [ |b|n|s|l IH|l IH] using value_ind'; intros k.
  - cbn. lia.
  - destruct b; cbn; lia.
  - simpl. apply print_int_length.
  - simpl. pose proof (print_chars_length s k). lia.
  - destruct l as [|x t]; [cbn; lia|].
    apply Forall_cons in IH as [Hx Ht].
    pose proof (print_elems_length t k Ht).
    specialize (Hx (print_elems print_value k t)).
    change (print_value (VArr (x :: t)) k)
      with (String "[" (print_value x (print_elems print_value k t))).
    change (need (VArr (x :: t)))
      with (S (Nat.max (need x) (need_elems need t))).
    cbn [String.length]. lia.
  - destruct l as [|m t]; [cbn; lia|].
    apply Forall_cons in IH as [Hm Ht].
    pose proof (print_members_length t k Ht).
    pose proof (print_member_length m (print_members print_value k t) Hm).
    change (print_value (VObj (m :: t)) k)
      with (String "{" (print_member print_value m (print_members print_value k t))).
    change (need (VObj (m :: t)))
      with (S (Nat.max (S (need (snd m))) (need_members need t))).
    cbn [String.length]. lia.
Qed.

(** [JSON.parse(JSON.stringify(v))] gives [v] back. *)
Lemma JSON_parse_stringify (v : value) : JSON_parse (JSON_stringify v) = Some v.
Proof.
  unfold JSON_parse, JSON_stringify.
  rewrite parse_print_value; [reflexivity| |reflexivity].
  pose proof (print_value_length v EmptyString). lia.
Qed.

(** ** The cache gate *)

Lemma tryLoadCache_eq (sig : string) (w : World) :
  tryLoadCache sig w =
  (Ok (cache_lookup sig (localStorage w)), record (EvGetItem CACHE_KEY) w).
Proof.
  unfold tryLoadCache, cache_lookup, try_catch, localStorage_getItem,
    mbind, M_bind, mret, M_ret.
  cbn [localStorage record].
  destruct (get_throws (localStorage w)); [reflexivity|].
  destruct (items (localStorage w) !! CACHE_KEY) as [text|]; [|reflexivity].
  destruct text as [|c text]; [reflexivity|].
  cbn [truthy_str String.eqb negb].
  unfold JSON_parse_or_throw.
  destruct (JSON_parse (String c text)) as [parsed|]; [|reflexivity].
  destruct parsed; cbn; try reflexivity;
    match goal with |- context [if ?b then _ else _] => destruct b end; reflexivity.
Qed.

Lemma saveCache_eq (sig : string) (g : value) (w : World) :
  saveCache sig g w =
  (Ok tt,
   let text := JSON_stringify (cache_payload sig g) in
   let w1 := record (EvSetItem CACHE_KEY text) w in
   if set_throws (localStorage w) CACHE_KEY text then w1
   else set_localStorage (Storage_put CACHE_KEY text (localStorage w)) w1).
Proof.
  unfold saveCache, try_catch, localStorage_setItem. cbn [localStorage record].
  destruct (set_throws _ _ _); reflexivity.
Qed.

Lemma cache_lookup_Some (sig : string) (st : Storage) (g : value) :
  cache_lookup sig st = Some g <->
  get_throws st = false /\
  exists text parsed,
    items st !! CACHE_KEY = Some text /\ JSON_parse text = Some parsed /\
    get_prop parsed "sig" = Some (VStr sig) /\
    get_prop parsed "graph" = Some g /\
    truthy (get_prop g "nodes") = true /\ truthy (get_prop g "links") = true.
Proof.
  unfold cache_lookup. split.
  - destruct (get_throws st); [discriminate|].
    destruct (items st !! CACHE_KEY) as [text|] eqn:Htext; [|discriminate].
    destruct (JSON_parse text) as [parsed|] eqn:Hparsed; [|discriminate].
    destruct (strict_eq_str _ _) eqn:Hsig; [|discriminate].
    destruct (truthy (get_prop_opt _ "nodes")) eqn:Hn; [|discriminate].
    destruct (truthy (get_prop_opt _ "links")) eqn:Hl; [|discriminate].
    simpl. intros Hg. rewrite Hg in Hn, Hl. split; [reflexivity|].
    exists text, parsed. split_and!; try done.
    + unfold strict_eq_str in Hsig.
      destruct (get_prop parsed "sig") as [[]|]; try discriminate.
      apply String.eqb_eq in Hsig. now subst.
    + destruct g; simpl in *; congruence.
    + destruct g; simpl in *; congruence.
  - intros (-> & text & parsed & -> & -> & Hsig & Hg & Hn & Hl).
    rewrite Hsig, Hg. simpl strict_eq_str. rewrite String.eqb_refl.
    assert (forall k, get_prop_opt (Some g) k = get_prop g k) as E
      by (intros k; now destruct g).
    now rewrite !E, Hn, Hl.
Qed.

Lemma cache_lookup_truthy (sig : string) (st : Storage) (g : value) :
  cache_lookup sig st = Some g -> truthy (Some g) = true.
Proof.
  intros (_ & _ & _ & _ & _ & _ & _ & Hn & _)%cache_lookup_Some.
  destruct g; simpl in *; congruence.
Qed.

(** A stored payload is found again under its own signature, when the
    graph has truthy [nodes] and [links]. *)
Lemma cache_lookup_put (sig sig' : string) (g : value) (st : Storage) :
  get_throws st = false ->
  cache_lookup sig'
    (Storage_put CACHE_KEY (JSON_stringify (cache_payload sig g)) st) =
  if String.eqb sig sig'
     && truthy (get_prop_opt (Some g) "nodes")
     && truthy (get_prop_opt (Some g) "links")
  then Some g else None.
Proof.
  intros Hget. unfold cache_lookup, Storage_put. cbn [get_throws items].
  rewrite Hget, lookup_insert_eq, JSON_parse_stringify. reflexivity.
Qed.

(** ** The three ways [buildOrLoad] can go *)

(** Reduce the state accessors and setters, and nothing else. *)
Ltac run_state :=
  cbn [graph loadingGraph graphErr localStorage trace record setGraph
       setGraphErr setLoadingGraph set_localStorage negb truthy fst snd].

Lemma buildOrLoad_empty crawl titles force (w : World) :
  buildOrLoad crawl [] titles force w =
  (Ok tt,
   {| graph := None; loadingGraph := loadingGraph w; graphErr := None;
      localStorage := localStorage w; trace := trace w |}).
Proof. reflexivity. Qed.

Lemma buildOrLoad_hit crawl seeds titles (w : World) (g : value) :
  seeds <> [] ->
  cache_lookup (cacheSig seeds) (localStorage w) = Some g ->
  buildOrLoad crawl seeds titles false w =
  (Ok tt,
   {| graph := Some g; loadingGraph := false; graphErr := None;
      localStorage := localStorage w;
      trace := trace w ++ [EvGetItem CACHE_KEY] |}).
Proof.
  intros Hne Hhit. destruct seeds as [|s seeds]; [done|].
  unfold buildOrLoad. cbn [List.length Nat.eqb negb].
  unfold try_finally, try_catch, mbind, M_bind, mret, M_ret.
  cbn [setLoadingGraph setGraphErr].
  rewrite tryLoadCache_eq. cbn [localStorage].
  rewrite Hhit, (cache_lookup_truthy _ _ _ Hhit). reflexivity.
Qed.

Lemma buildOrLoad_crawl crawl seeds titles force (w : World) :
  seeds <> [] ->
  force = true \/ cache_lookup (cacheSig seeds) (localStorage w) = None ->
  buildOrLoad crawl seeds titles force w =
  let w0 := crawl_start force w in
  let opts := build_options seeds titles in
  match crawl opts (trace w0) with
  | Ok g =>
      let text := JSON_stringify (cache_payload (cacheSig seeds) (Graph_to_value g)) in
      (Ok tt,
       {| graph := Some (Graph_to_value g); loadingGraph := false;
          graphErr := None;
          localStorage :=
            if set_throws (localStorage w) CACHE_KEY text then localStorage w
            else Storage_put CACHE_KEY text (localStorage w);
          trace := (trace w0 ++ [EvCrawl opts]) ++ [EvSetItem CACHE_KEY text] |})
  | Throw e =>
      (Ok tt,
       {| graph := graph w; loadingGraph := false;
          graphErr := Some (error_message e);
          localStorage := localStorage w;
          trace := trace w0 ++ [EvCrawl opts] |})
  end.
Proof.
  intros Hne Hreach. destruct seeds as [|s seeds]; [done|].
  unfold buildOrLoad. cbn [List.length Nat.eqb].
  unfold try_finally, try_catch, mbind, M_bind, mret, M_ret,
    await_buildCitationGraph, crawl_start.
  cbv zeta.
  destruct force; run_state.
  - destruct (crawl _ (trace w)) as [g|e]; run_state; [|reflexivity].
    rewrite saveCache_eq. run_state.
    destruct (set_throws _ _ _); reflexivity.
  - destruct Hreach as [|Hmiss]; [done|].
    rewrite tryLoadCache_eq. run_state. rewrite Hmiss. run_state.
    destruct (crawl _ (trace w ++ [EvGetItem CACHE_KEY])%list) as [g|e]; run_state;
      [|reflexivity].
    rewrite saveCache_eq. run_state.
    destruct (set_throws _ _ _); reflexivity.
Qed.

(** ** The claims about the cache gate *)

Lemma tryLoadCache_on_model (sig : string) (w : World) :
  tryLoadCache_on model_platform sig w = tryLoadCache sig w.
Proof.
  unfold tryLoadCache_on, tryLoadCache, try_catch, localStorage_getItem,
    mbind, M_bind, mret, M_ret.
  cbn [localStorage record].
  destruct (get_throws (localStorage w)); [reflexivity|].
  destruct (items (localStorage w) !! CACHE_KEY) as [text|]; [|reflexivity].
  destruct (negb (truthy_str (Some text))); [reflexivity|].
  cbn [model_platform js_parse]. unfold JSON_parse_or_throw.
  destruct (JSON_parse text) as [parsed|]; [|reflexivity].
  destruct parsed as [ | | | | |members]; try reflexivity.
  unfold destructure2, mret, M_ret.
  cbn [model_platform js_null js_prop js_truthy js_eq_string jsval get_prop].
  destruct (last_member "graph" members) as [[]|]; reflexivity.
Qed.

(** C2, as the code has it. On any engine, [tryLoadCache] never
    throws and only reads; it returns a graph exactly when the area is
    readable and holds a non-empty text that parses to an entry, not
    [null], whose [sig] is strictly equal to the current signature and
    whose [graph] has truthy [nodes] and [links].  Every other case
    (unreadable area, missing entry, empty text, text that does not
    parse, [null], a member that is missing or falsy) gives [null].
    The test is one of presence: nothing is asked of the shape of
    [nodes] and [links] beyond their being truthy. *)
Theorem tryLoadCache_guarded (J : JSPlatform) (sig : string) (w : World) :
  exists r : option (jsval J),
    tryLoadCache_on J sig w = (Ok r, record (EvGetItem CACHE_KEY) w) /\
    forall g : jsval J,
      r = Some g <->
      get_throws (localStorage w) = false /\
      exists text parsed,
        items (localStorage w) !! CACHE_KEY = Some text /\
        text <> EmptyString /\
        js_parse J text = Some parsed /\
        js_null J parsed = false /\
        js_eq_string J (js_prop J parsed "sig") sig = true /\
        js_prop J parsed "graph" = Some g /\
        js_truthy J (js_prop_opt J (Some g) "nodes") = true /\
        js_truthy J (js_prop_opt J (Some g) "links") = true.
Proof.
  unfold tryLoadCache_on, try_catch, localStorage_getItem,
    mbind, M_bind, mret, M_ret, throw.
  cbn [localStorage record].
  destruct (get_throws (localStorage w)).
  { exists None. split; [reflexivity|]. intros g. split; [discriminate|].
    intros [? _]. discriminate. }
  destruct (items (localStorage w) !! CACHE_KEY) as [text|].
  2:{ exists None. split; [reflexivity|]. intros g. split; [discriminate|].
      intros (_ & text & parsed & ? & _). discriminate. }
  destruct text as [|c text].
  { exists None. split; [reflexivity|]. intros g. split; [discriminate|].
    intros (_ & text & parsed & [= <-] & Hne & _). done. }
  cbn [truthy_str String.eqb negb].
  destruct (js_parse J (String c text)) as [parsed|] eqn:Hparse.
  2:{ exists None. split; [reflexivity|]. intros g. split; [discriminate|].
      intros (_ & text' & parsed & [= <-] & _ & Hp & _). congruence. }
  destruct (js_null J parsed) eqn:Hnull.
  { exists None. split; [reflexivity|]. intros g. split; [discriminate|].
    intros (_ & text' & parsed' & [= <-] & _ & Hp & Hn & _). congruence. }
  destruct (js_eq_string J (js_prop J parsed "sig") sig
            && js_truthy J (js_prop_opt J (js_prop J parsed "graph") "nodes")
            && js_truthy J (js_prop_opt J (js_prop J parsed "graph") "links"))
    eqn:Htest.
  - exists (js_prop J parsed "graph"). split; [reflexivity|].
    apply andb_true_iff in Htest as [[Hs Hn]%andb_true_iff Hl].
    intros g. split.
    + intros Hg. rewrite Hg in Hn, Hl. split; [reflexivity|].
      exists (String c text), parsed. split_and!; done.
    + intros (_ & text' & parsed' & [= <-] & _ & Hp & _ & _ & Hg & _).
      congruence.
  - exists None. split; [reflexivity|]. intros g. split; [discriminate|].
    intros (_ & text' & parsed' & [= <-] & _ & Hp & _ & Hs & Hg & Hn & Hl).
    assert (parsed' = parsed) as -> by congruence.
    rewrite Hs, Hg, Hn, Hl in Htest. discriminate.
Qed.

(** C2, as the spec words it, fails: an entry of the wrong shape,
    whose [nodes] is the number 7 and whose [links] is a string, is
    returned as the graph, because both are truthy. *)
Lemma wrong_shape_is_returned :
  fst (tryLoadCache "A"
         (world_of (storage_with_entry "A"
                      (VObj [("nodes", VNum 7); ("links", VStr "yes")]))))
  = Ok (Some (VObj [("nodes", VNum 7); ("links", VStr "yes")])).
Proof. vm_compute. reflexivity. Qed.

(** The failures the read recovers from, one by one. *)
Example tryLoadCache_unreadable :
  fst (tryLoadCache "A"
         (world_of {| items := ∅; get_throws := true;
                      set_throws := fun _ _ => false |})) = Ok None.
Proof. reflexivity. Qed.

Example tryLoadCache_missing : fst (tryLoadCache "A" (world_of fresh_storage)) = Ok None.
Proof. reflexivity. Qed.

Example tryLoadCache_malformed :
  fst (tryLoadCache "A"
         (world_of (Storage_put CACHE_KEY "{not json" fresh_storage))) = Ok None.
Proof. vm_compute. reflexivity. Qed.

Example tryLoadCache_null_payload :
  fst (tryLoadCache "A"
         (world_of (Storage_put CACHE_KEY "null" fresh_storage))) = Ok None.
Proof. vm_compute. reflexivity. Qed.

Example tryLoadCache_wrong_shape :
  fst (tryLoadCache "A"
         (world_of (Storage_put CACHE_KEY "[1,2]" fresh_storage))) = Ok None.
Proof. vm_compute. reflexivity. Qed.

(** C3, as the code has it. A stored entry whose graph lacks [nodes]
    or [links], or holds a falsy value there, is ignored. *)
Theorem tryLoadCache_rejects_falsy_containers
    (sig : string) (w : World) (text : string) (parsed : value) :
  items (localStorage w) !! CACHE_KEY = Some text ->
  JSON_parse text = Some parsed ->
  truthy (get_prop_opt (get_prop parsed "graph") "nodes") = false \/
  truthy (get_prop_opt (get_prop parsed "graph") "links") = false ->
  fst (tryLoadCache sig w) = Ok None.
Proof.
  intros Htext Hparsed Hfalsy. rewrite tryLoadCache_eq. cbn [fst].
  unfold cache_lookup. rewrite Htext, Hparsed.
  destruct (get_throws _); [reflexivity|].
  destruct Hfalsy as [-> | ->]; now rewrite ?andb_false_r.
Qed.

Lemma tryLoadCache_rejects_falsy_containers_witness :
  fst (tryLoadCache "A"
         (world_of (storage_with_entry "A" (VObj [("nodes", VArr [])])))) = Ok None.
Proof.
  apply (tryLoadCache_rejects_falsy_containers "A" _
           (JSON_stringify (cache_payload "A" (VObj [("nodes", VArr [])])))
           (cache_payload "A" (VObj [("nodes", VArr [])]))).
  - vm_compute. reflexivity.
  - vm_compute. reflexivity.
  - right. reflexivity.
Defined.

(** C3, as the spec words it, fails: an entry with the current
    signature whose [nodes] and [links] are both empty arrays is
    returned, because an empty array is truthy. *)
Lemma empty_containers_are_returned :
  Graph_to_value empty_graph = VObj [("nodes", VArr []); ("links", VArr [])] /\
  fst (tryLoadCache "A"
         (world_of (storage_with_entry "A" (Graph_to_value empty_graph))))
  = Ok (Some (Graph_to_value empty_graph)).
Proof. split; vm_compute; reflexivity. Qed.

Lemma tryLoadCache_miss_iff (sig : string) (w : World) :
  fst (tryLoadCache sig w) = Ok None <-> cache_lookup sig (localStorage w) = None.
Proof. rewrite tryLoadCache_eq. cbn [fst]. split; congruence. Qed.

Lemma crawl_reached (force : bool) (sig : string) (w : World) :
  force = true \/ fst (tryLoadCache sig w) = Ok None ->
  force = true \/ cache_lookup sig (localStorage w) = None.
Proof. intros [?|?%tryLoadCache_miss_iff]; auto. Qed.

(** C4. When the write to the storage area throws, [saveCache] ends
    normally all the same, and the build that reached the crawl ends
    normally with the fresh graph on display, no error, and the
    storage area as it was. *)
Theorem saveCache_failure_is_swallowed
    (crawl : BuildOptions -> list event -> result Graph)
    (seeds : list string) (titles : gmap string string) (force : bool)
    (w : World) (g : Graph) :
  seeds <> [] ->
  (forall h, crawl (build_options seeds titles) h = Ok g) ->
  set_throws (localStorage w) CACHE_KEY
    (JSON_stringify (cache_payload (cacheSig seeds) (Graph_to_value g))) = true ->
  force = true \/ fst (tryLoadCache (cacheSig seeds) w) = Ok None ->
  fst (saveCache (cacheSig seeds) (Graph_to_value g) w) = Ok tt /\
  localStorage (snd (saveCache (cacheSig seeds) (Graph_to_value g) w))
    = localStorage w /\
  let '(r, w') := buildOrLoad crawl seeds titles force w in
  r = Ok tt /\ graph w' = Some (Graph_to_value g) /\ graphErr w' = None /\
  loadingGraph w' = false /\ localStorage w' = localStorage w.
Proof.
  intros Hne Hcrawl Hfull Hreach%crawl_reached.
  rewrite saveCache_eq, (buildOrLoad_crawl crawl seeds titles force w Hne Hreach).
  cbv zeta. rewrite Hcrawl, !Hfull. run_state. by repeat split.
Qed.

Lemma saveCache_failure_is_swallowed_witness :
  fst (saveCache (cacheSig ["A"]) (Graph_to_value sample_graph) (world_of full_storage))
    = Ok tt /\
  localStorage (snd (saveCache (cacheSig ["A"]) (Graph_to_value sample_graph)
                       (world_of full_storage)))
    = localStorage (world_of full_storage) /\
  let '(r, w') := buildOrLoad (crawl_returns sample_graph) ["A"] ∅ false
                    (world_of full_storage) in
  r = Ok tt /\ graph w' = Some (Graph_to_value sample_graph) /\
  graphErr w' = None /\ loadingGraph w' = false /\
  localStorage w' = localStorage (world_of full_storage).
Proof.
  apply (saveCache_failure_is_swallowed (crawl_returns sample_graph) ["A"] ∅ false
           (world_of full_storage) sample_graph).
  - discriminate.
  - reflexivity.
  - reflexivity.
  - right. reflexivity.
Defined.



(** C6, as the code has it. With no seed the build ends normally,
    clears the graph (it shows no graph at all, [null]) and the error,
    and touches neither the storage area nor the crawler. *)
Theorem empty_seeds_clear_graph
    (crawl : BuildOptions -> list event -> result Graph)
    (titles : gmap string string) (force : bool) (w : World) :
  let '(r, w') := buildOrLoad crawl [] titles force w in
  r = Ok tt /\ graph w' = None /\ graphErr w' = None /\
  trace w' = trace w /\ localStorage w' = localStorage w /\
  loadingGraph w' = loadingGraph w.
Proof. rewrite buildOrLoad_empty. cbn. auto 10. Qed.

(** C6, as the spec words it, fails: what the build leaves on display
    for an empty seed set is no graph, not the graph with no node and
    no link. *)
Lemma empty_seeds_yield_no_graph :
  seedDois [] = [] /\
  graph (snd (buildOrLoad (crawl_returns empty_graph) (seedDois []) ∅ false
                (world_of fresh_storage)))
  <> Some (Graph_to_value empty_graph).
Proof. split; [reflexivity|]. vm_compute. discriminate. Qed.

(** After a build that ended without error, under a storage area that
    works, the area holds an entry for the seeds' signature: the one
    that was hit, or the one that was written. *)
Lemma warm_after_build
    (crawl : BuildOptions -> list event -> result Graph)
    (seeds : list string) (titles : gmap string string) (w : World) :
  seeds <> [] ->
  storage_works (localStorage w) ->
  let w1 := snd (buildOrLoad crawl seeds titles false w) in
  graphErr w1 = None ->
  storage_works (localStorage w1) /\
  exists g, graph w1 = Some g /\
            cache_lookup (cacheSig seeds) (localStorage w1) = Some g.
Proof.
  intros Hne [Hget Hset] w1. subst w1.
  destruct (cache_lookup (cacheSig seeds) (localStorage w)) as [g|] eqn:Hlook.
  - rewrite (buildOrLoad_hit crawl seeds titles w g Hne Hlook). cbn. intros _.
    split; [done|]. exists g. auto.
  - rewrite (buildOrLoad_crawl crawl seeds titles false w Hne (or_intror Hlook)).
    cbv zeta. destruct (crawl _ _) as [g|e]; cbn [snd graphErr]; [intros _|discriminate].
    cbn [localStorage graph]. rewrite Hset. split; [done|].
    exists (Graph_to_value g). split; [reflexivity|].
    rewrite cache_lookup_put by done. now rewrite String.eqb_refl.
Qed.

Lemma cache_lookup_other_sig (sig sig' : string) (st : Storage) (g : value) :
  cache_lookup sig st = Some g -> sig <> sig' -> cache_lookup sig' st = None.
Proof.
  intros (Hget & text & parsed & Ht & Hp & Hs & _)%cache_lookup_Some Hne.
  destruct (cache_lookup sig' st) as [g'|] eqn:E; [|reflexivity].
  apply cache_lookup_Some in E as (_ & text' & parsed' & Ht' & Hp' & Hs' & _).
  congruence.
Qed.

(** C7. The signatures of [["A";"B"]] and [["A";"B";"C"]] differ, so
    after a build for the first that ended without error, the read for
    the second misses and the build for the second calls the crawler
    with the three seeds. *)
Theorem seed_change_triggers_fresh_crawl
    (crawl : BuildOptions -> list event -> result Graph)
    (titles titles' : gmap string string) (w : World) :
  storage_works (localStorage w) ->
  let w1 := snd (buildOrLoad crawl ["A"; "B"] titles false w) in
  graphErr w1 = None ->
  cacheSig ["A"; "B"] <> cacheSig ["A"; "B"; "C"] /\
  fst (tryLoadCache (cacheSig ["A"; "B"; "C"]) w1) = Ok None /\
  exists rest,
    trace (snd (buildOrLoad crawl ["A"; "B"; "C"] titles' false w1)) =
    trace w1 ++ EvGetItem CACHE_KEY
             :: EvCrawl (build_options ["A"; "B"; "C"] titles') :: rest.
Proof.
  intros Hworks w1 Herr.
  assert (Hsig : cacheSig ["A"; "B"] <> cacheSig ["A"; "B"; "C"])
    by (vm_compute; discriminate).
  destruct (warm_after_build crawl ["A"; "B"] titles w) as (_ & g & _ & Hlook);
    [done|done|exact Herr|]. fold w1 in Hlook.
  pose proof (cache_lookup_other_sig _ _ _ _ Hlook Hsig) as Hmiss.
  split_and!; [exact Hsig|now apply tryLoadCache_miss_iff|].
  rewrite (buildOrLoad_crawl crawl _ titles' false w1) by (done || auto).
  cbv zeta. unfold crawl_start.
  destruct (crawl _ _) as [g'|e]; cbn [snd trace]; eexists;
    rewrite <- ?app_assoc; reflexivity.
Qed.

Lemma seed_change_triggers_fresh_crawl_witness :
  let w1 := snd (buildOrLoad (crawl_returns sample_graph) ["A"; "B"] ∅ false
                   (world_of fresh_storage)) in
  cacheSig ["A"; "B"] <> cacheSig ["A"; "B"; "C"] /\
  fst (tryLoadCache (cacheSig ["A"; "B"; "C"]) w1) = Ok None /\
  exists rest,
    trace (snd (buildOrLoad (crawl_returns sample_graph) ["A"; "B"; "C"] ∅ false w1)) =
    trace w1 ++ EvGetItem CACHE_KEY
             :: EvCrawl (build_options ["A"; "B"; "C"] ∅) :: rest.
Proof.
  apply (seed_change_triggers_fresh_crawl (crawl_returns sample_graph) ∅ ∅
           (world_of fresh_storage)).
  - split; reflexivity.
  - vm_compute. reflexivity.
Defined.

(** C8. With seeds unchanged and a storage area that works, a second
    build without [force], after a first one that ended without error,
    puts the same graph on display and does nothing but read the
    storage area: the crawler is not called. *)
Theorem rebuild_is_idempotent
    (crawl : BuildOptions -> list event -> result Graph)
    (seeds : list string) (titles : gmap string string) (w : World) :
  seeds <> [] ->
  storage_works (localStorage w) ->
  let w1 := snd (buildOrLoad crawl seeds titles false w) in
  graphErr w1 = None ->
  is_Some (graph w1) /\
  buildOrLoad crawl seeds titles false w1 =
  (Ok tt,
   {| graph := graph w1; loadingGraph := false; graphErr := None;
      localStorage := localStorage w1;
      trace := trace w1 ++ [EvGetItem CACHE_KEY] |}).
Proof.
  intros Hne Hworks w1 Herr.
  destruct (warm_after_build crawl seeds titles w Hne Hworks Herr)
    as (_ & g & Hg & Hlook). fold w1 in Hg, Hlook.
  split; [rewrite Hg; eauto|].
  rewrite (buildOrLoad_hit crawl seeds titles w1 g Hne Hlook). now rewrite Hg.
Qed.

Lemma rebuild_is_idempotent_witness :
  let w1 := snd (buildOrLoad (crawl_returns sample_graph) ["B"; "A"] ∅ false
                   (world_of fresh_storage)) in
  is_Some (graph w1) /\
  buildOrLoad (crawl_returns sample_graph) ["B"; "A"] ∅ false w1 =
  (Ok tt,
   {| graph := graph w1; loadingGraph := false; graphErr := None;
      localStorage := localStorage w1;
      trace := trace w1 ++ [EvGetItem CACHE_KEY] |}).
Proof.
  apply (rebuild_is_idempotent (crawl_returns sample_graph) ["B"; "A"] ∅
           (world_of fresh_storage)).
  - discriminate.
  - split; reflexivity.
  - vm_compute. reflexivity.
Defined.

(** C9. The seed sets [{a|b}] and [{a, b}] are different and have the
    same signature, so the entry saved for the first is a hit for the
    second. *)
Theorem signature_collision (g : Graph) (w : World) :
  storage_works (localStorage w) ->
  NoDup ["a|b"] /\ NoDup ["a"; "b"] /\
  ~ (forall x : string, x ∈ ["a|b"] <-> x ∈ ["a"; "b"]) /\
  cacheSig ["a|b"] = cacheSig ["a"; "b"] /\
  fst (tryLoadCache (cacheSig ["a"; "b"])
         (snd (saveCache (cacheSig ["a|b"]) (Graph_to_value g) w)))
  = Ok (Some (Graph_to_value g)).
Proof.
  intros [Hget Hset]. split_and!.
  - apply NoDup_singleton.
  - apply NoDup_cons. split; [|apply NoDup_singleton].
    rewrite list_elem_of_singleton. discriminate.
  - intros H. specialize (H "a"). rewrite list_elem_of_singleton in H.
    assert (Ha : "a" ∈ ["a"; "b"]) by apply list_elem_of_here.
    apply H in Ha. discriminate Ha.
  - vm_compute. reflexivity.
  - rewrite saveCache_eq, tryLoadCache_eq. cbv zeta. rewrite Hset.
    cbn [fst snd localStorage record set_localStorage].
    rewrite cache_lookup_put by done. reflexivity.
Qed.

Lemma signature_collision_witness :
  NoDup ["a|b"] /\ NoDup ["a"; "b"] /\
  ~ (forall x : string, x ∈ ["a|b"] <-> x ∈ ["a"; "b"]) /\
  cacheSig ["a|b"] = cacheSig ["a"; "b"] /\
  fst (tryLoadCache (cacheSig ["a"; "b"])
         (snd (saveCache (cacheSig ["a|b"]) (Graph_to_value sample_graph)
                 (world_of fresh_storage))))
  = Ok (Some (Graph_to_value sample_graph)).
Proof.
  apply (signature_collision sample_graph (world_of fresh_storage)).
  split; reflexivity.
Defined.



Example error_message_default : error_message (Exn None) = DEFAULT_ERROR.
Proof. reflexivity. Qed.

Example error_message_given : error_message (Exn (Some "HTTP 503")) = "HTTP 503".
Proof. reflexivity. Qed.

(* ================================================================== *)
(** * Part V: the rest of the page                                     *)
(* ================================================================== *)

(** ** [String.prototype.trim] *)

Lemma emit_empty_r (s : string) : emit s EmptyString = s.
Proof. induction s as [|c s IH]; simpl; congruence. Qed.

Lemma emit_assoc (a b c : string) : emit (emit a b) c = emit a (emit b c).
Proof. induction a as [|x a IH]; simpl; congruence. Qed.

Lemma str_rev_onto_emit (s acc : string) :
  str_rev_onto s acc = emit (str_rev s) acc.
Proof.
  unfold str_rev. revert acc.
  induction s as [|c s IH]; intros acc; simpl; [reflexivity|].
  rewrite IH, (IH (String c EmptyString)), emit_assoc. reflexivity.
Qed.

Lemma str_rev_cons (c : ascii) (s : string) :
  str_rev (String c s) = emit (str_rev s) (String c EmptyString).
Proof. unfold str_rev at 1. simpl. apply str_rev_onto_emit. Qed.

Lemma str_rev_snoc (s : string) (c : ascii) :
  str_rev (emit s (String c EmptyString)) = String c (str_rev s).
Proof.
  induction s as [|x s IH]; [reflexivity|].
  simpl emit. rewrite !str_rev_cons, IH. reflexivity.
Qed.

Lemma str_rev_involutive (s : string) : str_rev (str_rev s) = s.
Proof.
  induction s as [|c s IH]; [reflexivity|].
  now rewrite str_rev_cons, str_rev_snoc, IH.
Qed.

Lemma trimStart_idemp (s : string) : trimStart (trimStart s) = trimStart s.
Proof.
  induction s as [|c s IH]; [reflexivity|]. simpl.
  destruct (is_js_space c) eqn:E; [exact IH|]. simpl. now rewrite E.
Qed.

Lemma trimStart_snoc (s : string) (c : ascii) :
  trimStart (emit s (String c EmptyString)) =
  match trimStart s with
  | EmptyString => if is_js_space c then EmptyString else String c EmptyString
  | String _ _ => emit (trimStart s) (String c EmptyString)
  end.
Proof.
  induction s as [|x s IH]; simpl; [reflexivity|].
  destruct (is_js_space x); [exact IH|reflexivity].
Qed.

(** What [trim] does at the end of a string, one character at a time. *)
Lemma trimEnd_cons (c : ascii) (s : string) :
  str_rev (trimStart (str_rev (String c s))) =
  match str_rev (trimStart (str_rev s)) with
  | EmptyString => if is_js_space c then EmptyString else String c EmptyString
  | String x r => String c (String x r)
  end.
Proof.
  rewrite str_rev_cons, trimStart_snoc.
  destruct (trimStart (str_rev s)) as [|y t] eqn:E.
  - destruct (is_js_space c); reflexivity.
  - rewrite str_rev_snoc.
    destruct (str_rev (String y t)) as [|x r] eqn:E'; [|reflexivity].
    apply (f_equal str_rev) in E'. rewrite str_rev_involutive in E'. discriminate E'.
Qed.

Lemma trimStart_trimEnd (s : string) :
  trimStart s = s ->
  trimStart (str_rev (trimStart (str_rev s))) = str_rev (trimStart (str_rev s)).
Proof.
  destruct s as [|c s]; [reflexivity|]. simpl.
  destruct (is_js_space c) eqn:E.
  - intros H. exfalso. clear E.
    assert (Hlen : forall t, String.length (trimStart t) <= String.length t).
    { induction t as [|x t IH]; simpl; [lia|]. destruct (is_js_space x); simpl; lia. }
    specialize (Hlen s). rewrite H in Hlen. simpl in Hlen. lia.
  - intros _. rewrite trimEnd_cons, E.
    destruct (str_rev (trimStart (str_rev s))); simpl; now rewrite E.
Qed.

(** Trimming twice is trimming once. *)
Lemma trim_idemp (s : string) : trim (trim s) = trim s.
Proof.
  unfold trim.
  rewrite (trimStart_trimEnd (trimStart s)) by apply trimStart_idemp.
  now rewrite str_rev_involutive, trimStart_idemp.
Qed.

(** ** The seeds and the title hints *)

Lemma collect_paper_dois (p : Paper) (acc : list string * gmap string string) (x : string) :
  x ∈ fst (collect_paper acc p) <->
  x ∈ fst acc \/
  (x <> EmptyString /\ exists d, paper_doi p = Some d /\ trim d = x).
Proof.
  destruct acc as [dois titles]. unfold collect_paper.
  destruct (paper_doi p) as [d|]; cbn [fst].
  - assert (Hpush :
      (truthy_str (Some d) && truthy_str (Some (trim d))) = true <->
      trim d <> EmptyString).
    { destruct d as [|c d']; [cbn; split; [discriminate|congruence]|].
      cbn [truthy_str String.eqb negb andb].
      destruct (String.eqb_spec (trim (String c d')) EmptyString) as [E|E];
        cbn [negb]; split; congruence. }
    destruct (truthy_str (Some d) && truthy_str (Some (trim d))).
    + rewrite elem_of_app, list_elem_of_singleton. split.
      * intros [? | ->]; [auto|]. right. split; [now apply Hpush|eauto].
      * intros [?|[_ (d0 & Hd0 & Hd)]]; [auto|]. right. congruence.
    + split; [auto|]. intros [?|[Hx (d0 & Hd0 & Hd)]]; [done|].
      injection Hd0 as <-. subst x. apply Hpush in Hx. discriminate Hx.
  - split; [auto|]. intros [?|[_ (d & ? & _)]]; [done|discriminate].
Qed.

Lemma collect_papers_dois (papers : list Paper)
    (acc : list string * gmap string string) (x : string) :
  x ∈ fst (fold_left collect_paper papers acc) <->
  x ∈ fst acc \/
  (x <> EmptyString /\
   exists p d, p ∈ papers /\ paper_doi p = Some d /\ trim d = x).
Proof.
  revert acc. induction papers as [|p papers IH]; intros acc; simpl.
  - split; [auto|]. intros [?|[_ (p & d & Hp & _)]]; [done|].
    now apply elem_of_nil in Hp.
  - rewrite IH, collect_paper_dois. split.
    + intros [[?|[Hx (d & Hd & Ht)]]|[Hx (q & d & Hq & Hd & Ht)]]; auto.
      * right. split; [done|]. exists p, d. split_and!; auto. apply list_elem_of_here.
      * right. split; [done|]. exists q, d. split_and!; auto. now apply list_elem_of_further.
    + intros [?|[Hx (q & d & Hq & Hd & Ht)]]; auto.
      apply elem_of_cons in Hq as [->|Hq].
      * left. right. eauto.
      * right. split; [done|]. eauto.
Qed.

Lemma seedDois_elem (papers : list Paper) (x : string) :
  x ∈ seedDois papers <->
  x <> EmptyString /\ trim x = x /\
  exists p d, p ∈ papers /\ paper_doi p = Some d /\ trim d = x.
Proof.
  unfold seedDois, collect_papers.
  rewrite Array_from_Set_elem, collect_papers_dois. cbn [fst]. split.
  - intros [H|[Hx (p & d & Hp & Hd & Ht)]]; [now apply elem_of_nil in H|].
    split_and!; eauto. rewrite <- Ht. apply trim_idemp.
  - intros (Hx & _ & H). auto.
Qed.

(** X1. [seedDois] holds no identifier twice, and holds exactly the
    non-empty trimmed DOIs of the papers; each of them is its own
    trimmed form. *)
Theorem seedDois_spec (papers : list Paper) :
  NoDup (seedDois papers) /\
  forall x : string,
    x ∈ seedDois papers <->
    x <> EmptyString /\ trim x = x /\
    exists p d, p ∈ papers /\ paper_doi p = Some d /\ trim d = x.
Proof. split; [apply Array_from_Set_NoDup|apply seedDois_elem]. Qed.

Lemma Object_set_lookup (key val : string) (obj : gmap string string) (k : string) :
  Object_set key val obj !! k =
  if String.eqb key "__proto__" then obj !! k
  else if decide (key = k) then Some val else obj !! k.
Proof.
  unfold Object_set. destruct (String.eqb key "__proto__"); [reflexivity|].
  destruct (decide (key = k)) as [->|Hne].
  - apply lookup_insert_eq.
  - now apply lookup_insert_ne.
Qed.

Lemma collect_paper_titles (p : Paper) (acc : list string * gmap string string)
    (k t : string) :
  snd (collect_paper acc p) !! k = Some t ->
  snd acc !! k = Some t \/
  (t <> EmptyString /\
   exists d, paper_doi p = Some d /\ d <> EmptyString /\ trim d = k /\
             paper_title p = Some t).
Proof.
  destruct acc as [dois titles]. unfold collect_paper.
  destruct (paper_doi p) as [d|]; cbn [snd]; [|auto].
  destruct (paper_title p) as [t'|]; [|auto].
  destruct d as [|c d']; [cbn; auto|].
  destruct t' as [|c' t'']; [cbn; auto|].
  cbn [truthy_str String.eqb negb andb]. rewrite Object_set_lookup.
  destruct (String.eqb (trim (String c d')) "__proto__"); [auto|].
  destruct (decide (trim (String c d') = k)) as [<-|Hne]; [|auto].
  intros [= <-]. right. split; [done|]. eauto 10.
Qed.

(** The object [titles] never gets an own property [__proto__]. *)
Lemma collect_papers_no_proto (papers : list Paper)
    (acc : list string * gmap string string) :
  snd acc !! "__proto__" = None ->
  snd (fold_left collect_paper papers acc) !! "__proto__" = None.
Proof.
  revert acc. induction papers as [|p papers IH]; intros acc Hacc; [exact Hacc|].
  simpl. apply IH. destruct acc as [dois titles]. unfold collect_paper.
  destruct (paper_doi p) as [d|]; cbn [snd]; [|exact Hacc].
  destruct (paper_title p) as [t|]; [|exact Hacc].
  destruct (truthy_str (Some d) && truthy_str (Some t)); [|exact Hacc].
  rewrite Object_set_lookup.
  destruct (String.eqb_spec (trim d) "__proto__") as [E|E]; [exact Hacc|].
  destruct (decide (trim d = "__proto__")); [done|exact Hacc].
Qed.

(** X2. Every title hint comes from a row of the CSV: [titlesByDoi]
    maps [k] to [t] only if some paper has a non-empty DOI that trims
    to [k] and the non-empty title [t]; and [k] is then a seed, or the
    empty string (a DOI made of white space only). *)
Theorem titlesByDoi_sound (papers : list Paper) (k t : string) :
  titlesByDoi papers !! k = Some t ->
  t <> EmptyString /\
  (k ∈ seedDois papers \/ k = EmptyString) /\
  exists p d, p ∈ papers /\ paper_doi p = Some d /\ d <> EmptyString /\
              trim d = k /\ paper_title p = Some t.
Proof.
  unfold titlesByDoi, collect_papers. intros H.
  assert (Hinv : forall ps acc,
    snd (fold_left collect_paper ps acc) !! k = Some t ->
    snd acc !! k = Some t \/
    (t <> EmptyString /\
     exists p d, p ∈ ps /\ paper_doi p = Some d /\ d <> EmptyString /\
                 trim d = k /\ paper_title p = Some t)).
  { induction ps as [|p ps IH]; intros acc; simpl; [auto|].
    intros [Hacc|(Ht & q & d & Hq & Hrest)]%IH.
    - apply collect_paper_titles in Hacc as [?|(Ht & d & Hd)]; [auto|].
      right. split; [done|]. exists p, d. split; [apply list_elem_of_here|done].
    - right. split; [done|]. exists q, d. split; [now apply list_elem_of_further|done]. }
  apply Hinv in H as [H|(Ht & p & d & Hp & Hd & Hne & Hk & Hpt)];
    [cbn in H; now rewrite lookup_empty in H|].
  split_and!; [done| |eauto 10].
  destruct (decide (k = EmptyString)) as [?|Hk']; [auto|]. left.
  apply seedDois_elem. split_and!; [done| |eauto].
  rewrite <- Hk. apply trim_idemp.
Qed.

Lemma titlesByDoi_sound_witness :
  "Paper X" <> EmptyString /\
  ("10.1/x" ∈ seedDois [ {| paper_doi := Some " 10.1/x"; paper_title := Some "Paper X" |} ]
   \/ "10.1/x" = EmptyString) /\
  exists p d,
    p ∈ [ {| paper_doi := Some " 10.1/x"; paper_title := Some "Paper X" |} ] /\
    paper_doi p = Some d /\ d <> EmptyString /\
    trim d = "10.1/x" /\ paper_title p = Some "Paper X".
Proof.
  apply (titlesByDoi_sound
           [ {| paper_doi := Some " 10.1/x"; paper_title := Some "Paper X" |} ]
           "10.1/x" "Paper X").
  vm_compute. reflexivity.
Defined.

(** X3. A later row overrides the title hint of an earlier row with
    the same trimmed DOI, unless that trimmed DOI is [__proto__]: the
    object never holds a hint under that name. *)
Theorem titlesByDoi_last_wins (papers : list Paper) (d t : string) :
  d <> EmptyString -> t <> EmptyString ->
  titlesByDoi (papers ++ [ {| paper_doi := Some d; paper_title := Some t |} ])
    !! trim d =
  if String.eqb (trim d) "__proto__" then None else Some t.
Proof.
  intros Hd Ht. unfold titlesByDoi, collect_papers.
  rewrite fold_left_app. cbn [fold_left].
  pose proof (collect_papers_no_proto papers ([], ∅) (lookup_empty _)) as Hproto.
  destruct (fold_left collect_paper papers ([], ∅)) as [dois titles].
  unfold collect_paper. cbn [paper_doi paper_title snd] in *.
  destruct d as [|c d']; [done|]. destruct t as [|c' t']; [done|].
  cbn [truthy_str String.eqb negb andb]. rewrite Object_set_lookup.
  destruct (String.eqb_spec (trim (String c d')) "__proto__") as [E|E].
  - rewrite E. exact Hproto.
  - now rewrite decide_True.
Qed.

Lemma titlesByDoi_last_wins_witness :
  titlesByDoi ([ {| paper_doi := Some "10.1/x"; paper_title := Some "old" |} ]
               ++ [ {| paper_doi := Some " 10.1/x "; paper_title := Some "new" |} ])
    !! trim " 10.1/x " =
  if String.eqb (trim " 10.1/x ") "__proto__" then None else Some "new".
Proof.
  apply (titlesByDoi_last_wins
           [ {| paper_doi := Some "10.1/x"; paper_title := Some "old" |} ]
           " 10.1/x " "new"); discriminate.
Defined.

Example titlesByDoi_proto_row :
  titlesByDoi [ {| paper_doi := Some " __proto__ "; paper_title := Some "T" |} ] = ∅.
Proof. vm_compute. reflexivity. Qed.

(** X4. The signature does not depend on the order of the rows nor on
    rows given twice: two lists with the same papers have the same
    [cacheSig]. *)
Theorem cacheSig_row_order (papers1 papers2 : list Paper) :
  (forall p, p ∈ papers1 <-> p ∈ papers2) ->
  cacheSig (seedDois papers1) = cacheSig (seedDois papers2).
Proof.
  intros Heq. unfold cacheSig. f_equal.
  apply Array_sort_perm_eq, NoDup_Permutation;
    [apply Array_from_Set_NoDup|apply Array_from_Set_NoDup|].
  intros x. rewrite !seedDois_elem.
  split; intros (Hx & Ht & p & d & Hp & Hd); (split_and!; [done|done|]);
    exists p, d; (split; [now apply Heq|done]).
Qed.

Lemma cacheSig_row_order_witness :
  cacheSig (seedDois [ {| paper_doi := Some "b"; paper_title := None |};
                       {| paper_doi := Some "a"; paper_title := None |} ])
  = cacheSig (seedDois [ {| paper_doi := Some "a"; paper_title := None |};
                         {| paper_doi := Some "b"; paper_title := None |};
                         {| paper_doi := Some "a"; paper_title := None |} ]).
Proof.
  apply cacheSig_row_order. intros p.
  rewrite !elem_of_cons, !elem_of_nil. tauto.
Defined.

(** ** The signature, without the separator in the identifiers *)

Lemma before_bar_append (x r : string) :
  has_bar x = false ->
  before_bar (String.append x (String "|" r)) = x /\
  after_bar (String.append x (String "|" r)) = Some r.
Proof.
  induction x as [|c x IH]; [intros _; split; reflexivity|].
  change (String.append (String c x) (String "|" r))
    with (String c (String.append x (String "|" r))).
  simpl. destruct (N_of_ascii c =? 124)%N; [discriminate|].
  intros H. destruct (IH H) as [-> ->]. split; reflexivity.
Qed.

Lemma before_bar_none (x : string) :
  has_bar x = false -> before_bar x = x /\ after_bar x = None.
Proof.
  induction x as [|c x IH]; [intros _; split; reflexivity|].
  simpl. destruct (N_of_ascii c =? 124)%N; [discriminate|].
  intros H. destruct (IH H) as [-> ->]. split; reflexivity.
Qed.

Lemma join_split (x : string) (xs : list string) :
  has_bar x = false ->
  before_bar (Array_join "|" (x :: xs)) = x /\
  after_bar (Array_join "|" (x :: xs)) =
    match xs with
    | [] => None
    | _ :: _ => Some (Array_join "|" xs)
    end.
Proof.
  intros Hx. unfold Array_join. destruct xs as [|y ys].
  - now apply before_bar_none.
  - change (String.concat "|" (x :: y :: ys))
      with (String.append x (String "|" (String.concat "|" (y :: ys)))).
    now apply before_bar_append.
Qed.

Lemma join_injective (l1 l2 : list string) :
  Forall (fun x => x <> EmptyString /\ has_bar x = false) l1 ->
  Forall (fun x => x <> EmptyString /\ has_bar x = false) l2 ->
  Array_join "|" l1 = Array_join "|" l2 -> l1 = l2.
Proof.
  intros H1. revert l2.
  induction H1 as [|x1 xs1 [Hne1 Hb1] H1 IH]; intros l2 H2 Heq.
  - destruct H2 as [|x2 xs2 [Hne2 Hb2] H2]; [reflexivity|].
    destruct (join_split x2 xs2 Hb2) as [Hb _]. rewrite <- Heq in Hb.
    cbn in Hb. congruence.
  - destruct H2 as [|x2 xs2 [Hne2 Hb2] H2].
    + destruct (join_split x1 xs1 Hb1) as [Hb _]. rewrite Heq in Hb.
      cbn in Hb. congruence.
    + destruct (join_split x1 xs1 Hb1) as [Hx1 Ha1].
      destruct (join_split x2 xs2 Hb2) as [Hx2 Ha2].
      rewrite Heq in Hx1, Ha1. assert (x1 = x2) as -> by congruence.
      f_equal. rewrite Ha1 in Ha2.
      destruct xs1 as [|y1 ys1], xs2 as [|y2 ys2]; try discriminate Ha2;
        [reflexivity|].
      apply IH; [done|congruence].
Qed.

(** X5. Among seed sets whose identifiers are non-empty and free of
    the separator, the signature tells seed sets apart: equal
    signatures mean the same identifiers. *)
Theorem cacheSig_injective_without_bar (l1 l2 : list string) :
  (forall x, x ∈ l1 ++ l2 -> x <> EmptyString /\ has_bar x = false) ->
  cacheSig l1 = cacheSig l2 -> l1 ≡ₚ l2.
Proof.
  intros Hok Hsig. unfold cacheSig in Hsig.
  assert (Hs : forall l, (forall x, x ∈ l -> x ∈ l1 ++ l2) ->
    Forall (fun x => x <> EmptyString /\ has_bar x = false) (Array_sort l)).
  { intros l Hl. apply Forall_forall. intros x Hx. apply Hok, Hl.
    unfold Array_sort in Hx. now rewrite merge_sort_Permutation in Hx. }
  apply join_injective in Hsig.
  - unfold Array_sort in Hsig.
    rewrite <- (merge_sort_Permutation str_le l1), Hsig.
    apply merge_sort_Permutation.
  - apply Hs. intros x Hx. apply elem_of_app. auto.
  - apply Hs. intros x Hx. apply elem_of_app. auto.
Qed.

Lemma cacheSig_injective_without_bar_witness : ["b"; "a"] ≡ₚ ["a"; "b"].
Proof.
  apply cacheSig_injective_without_bar.
  - intros x. rewrite !elem_of_app, !elem_of_cons, !elem_of_nil.
    intros [[->|[->|[]]]|[->|[->|[]]]]; split; (discriminate || reflexivity).
  - vm_compute. reflexivity.
Defined.

(** ** More on the cache gate *)

Lemma storage_works_put (k v : string) (st : Storage) :
  storage_works st -> storage_works (Storage_put k v st).
Proof. intros [Hg Hs]. split; [exact Hg|exact Hs]. Qed.

Lemma saveCache_storage (sig : string) (g : value) (w : World) :
  storage_works (localStorage w) ->
  localStorage (snd (saveCache sig g w)) =
  Storage_put CACHE_KEY (JSON_stringify (cache_payload sig g)) (localStorage w).
Proof.
  intros [_ Hset]. rewrite saveCache_eq. cbv zeta. rewrite Hset. reflexivity.
Qed.

(** X6. What [saveCache] wrote, [tryLoadCache] reads back: under a
    storage area that works, the read that follows a write returns the
    written graph when the signature is the same and the graph has
    truthy [nodes] and [links], and [null] otherwise. *)
Theorem save_then_load (sig sig' : string) (g : value) (w : World) :
  storage_works (localStorage w) ->
  fst (tryLoadCache sig' (snd (saveCache sig g w))) =
  Ok (if String.eqb sig sig'
         && truthy (get_prop_opt (Some g) "nodes")
         && truthy (get_prop_opt (Some g) "links")
      then Some g else None).
Proof.
  intros Hw. rewrite tryLoadCache_eq. cbn [fst].
  rewrite (saveCache_storage sig g w Hw).
  rewrite cache_lookup_put by apply Hw. reflexivity.
Qed.

Lemma save_then_load_witness :
  fst (tryLoadCache "A|B"
         (snd (saveCache "A|B" (Graph_to_value sample_graph) (world_of fresh_storage)))) =
  Ok (if String.eqb "A|B" "A|B"
         && truthy (get_prop_opt (Some (Graph_to_value sample_graph)) "nodes")
         && truthy (get_prop_opt (Some (Graph_to_value sample_graph)) "links")
      then Some (Graph_to_value sample_graph) else None).
Proof.
  apply (save_then_load "A|B" "A|B" (Graph_to_value sample_graph)
           (world_of fresh_storage)).
  split; reflexivity.
Defined.

(** X7. The cache has one slot: once an entry is saved under another
    signature, the entry saved before is gone. *)
Theorem save_evicts_other_signature
    (sig1 sig2 : string) (g1 g2 : value) (w : World) :
  storage_works (localStorage w) ->
  sig1 <> sig2 ->
  fst (tryLoadCache sig1
         (snd (saveCache sig2 g2 (snd (saveCache sig1 g1 w))))) = Ok None.
Proof.
  intros Hw Hne. rewrite tryLoadCache_eq. cbn [fst].
  rewrite saveCache_storage, saveCache_storage by
    (try rewrite saveCache_storage by done; try apply storage_works_put; done).
  rewrite cache_lookup_put by apply Hw.
  destruct (String.eqb_spec sig2 sig1) as [E|_]; [congruence|reflexivity].
Qed.

Lemma save_evicts_other_signature_witness :
  fst (tryLoadCache "A"
         (snd (saveCache "B" (Graph_to_value empty_graph)
                 (snd (saveCache "A" (Graph_to_value sample_graph)
                         (world_of fresh_storage)))))) = Ok None.
Proof.
  apply (save_evicts_other_signature "A" "B" (Graph_to_value sample_graph)
           (Graph_to_value empty_graph) (world_of fresh_storage)).
  - split; reflexivity.
  - discriminate.
Defined.

(** The two ways a build with seeds can end. *)
Lemma buildOrLoad_outcome
    (crawl : BuildOptions -> list event -> result Graph)
    (seeds : list string) (titles : gmap string string) (force : bool)
    (w : World) :
  seeds <> [] ->
  let r := buildOrLoad crawl seeds titles force w in
  fst r = Ok tt /\ loadingGraph (snd r) = false /\
  ((graphErr (snd r) = None /\
    exists g, graph (snd r) = Some g /\
              truthy (get_prop_opt (Some g) "nodes") = true /\
              truthy (get_prop_opt (Some g) "links") = true)
   \/
   (exists e, graphErr (snd r) = Some (error_message e) /\
              graph (snd r) = graph w /\
              localStorage (snd r) = localStorage w)).
Proof.
  intros Hne r. subst r.
  destruct force.
  - rewrite (buildOrLoad_crawl crawl seeds titles true w Hne) by auto.
    cbv zeta. destruct (crawl _ _) as [g|e]; cbn; eauto 10.
  - destruct (cache_lookup (cacheSig seeds) (localStorage w)) as [g|] eqn:Hlook.
    + rewrite (buildOrLoad_hit crawl seeds titles w g Hne Hlook). cbn [fst snd].
      split_and!; [done|done|]. left.
      apply cache_lookup_Some in Hlook
        as (_ & _ & _ & _ & _ & _ & _ & Hn & Hl).
      split; [done|]. exists g.
      assert (forall k, get_prop_opt (Some g) k = get_prop g k) as E
        by (intros k; now destruct g).
      now rewrite !E.
    + rewrite (buildOrLoad_crawl crawl seeds titles false w Hne) by auto.
      cbv zeta. destruct (crawl _ _) as [g|e]; cbn; eauto 10.
Qed.

(** X8. [buildOrLoad] never throws, whatever the storage area and the
    crawler do, and with seeds at hand it always leaves [loadingGraph]
    switched off. *)
Theorem buildOrLoad_never_throws
    (crawl : BuildOptions -> list event -> result Graph)
    (seeds : list string) (titles : gmap string string) (force : bool)
    (w : World) :
  fst (buildOrLoad crawl seeds titles force w) = Ok tt /\
  (seeds <> [] ->
   loadingGraph (snd (buildOrLoad crawl seeds titles force w)) = false).
Proof.
  destruct seeds as [|s seeds].
  - rewrite buildOrLoad_empty. split; [reflexivity|done].
  - destruct (buildOrLoad_outcome crawl (s :: seeds) titles force w) as (H1 & H2 & _);
      [done|]. auto.
Qed.

(** X9. A build writes under the cache key and nowhere else: every
    other item of the storage area is as it was. *)
Theorem buildOrLoad_other_keys
    (crawl : BuildOptions -> list event -> result Graph)
    (seeds : list string) (titles : gmap string string) (force : bool)
    (w : World) (k : string) :
  k <> CACHE_KEY ->
  items (localStorage (snd (buildOrLoad crawl seeds titles force w))) !! k =
  items (localStorage w) !! k.
Proof.
  intros Hk. destruct seeds as [|s seeds]; [now rewrite buildOrLoad_empty|].
  assert (Hcrawl :
    force = true \/ cache_lookup (cacheSig (s :: seeds)) (localStorage w) = None ->
    items (localStorage (snd (buildOrLoad crawl (s :: seeds) titles force w))) !! k =
    items (localStorage w) !! k).
  { intros Hreach.
    rewrite (buildOrLoad_crawl crawl (s :: seeds) titles force w) by done.
    cbv zeta. destruct (crawl _ _) as [g|e]; cbn [snd localStorage]; [|done].
    destruct (set_throws _ _ _); [done|].
    cbn [Storage_put items]. now rewrite lookup_insert_ne. }
  destruct force; [auto|].
  destruct (cache_lookup (cacheSig (s :: seeds)) (localStorage w)) as [g|] eqn:Hlook;
    [|auto].
  now rewrite (buildOrLoad_hit crawl (s :: seeds) titles w g).
Qed.

Lemma buildOrLoad_other_keys_witness :
  items (localStorage (snd (buildOrLoad (crawl_returns sample_graph) ["A"] ∅ true
                              (world_of (Storage_put "bookmarks" "[1]" fresh_storage)))))
    !! "bookmarks" =
  items (localStorage (world_of (Storage_put "bookmarks" "[1]" fresh_storage)))
    !! "bookmarks".
Proof.
  apply (buildOrLoad_other_keys (crawl_returns sample_graph) ["A"] ∅ true
           (world_of (Storage_put "bookmarks" "[1]" fresh_storage)) "bookmarks").
  discriminate.
Defined.

(** X10. The outside calls of one build: at most one read of the
    cache, then at most one call of the crawler, then at most one
    write, in this order.  There is no read under [force], no write
    without a crawl before it, and with no seed there is no call at
    all; with seeds and [force] the crawler is always called. *)
Theorem buildOrLoad_calls
    (crawl : BuildOptions -> list event -> result Graph)
    (seeds : list string) (titles : gmap string string) (force : bool)
    (w : World) :
  exists (read crawled wrote : bool) (text : string),
    trace (snd (buildOrLoad crawl seeds titles force w)) =
      trace w
      ++ (if read then [EvGetItem CACHE_KEY] else [])
      ++ (if crawled then [EvCrawl (build_options seeds titles)] else [])
      ++ (if wrote then [EvSetItem CACHE_KEY text] else []) /\
    (read = true -> force = false) /\
    (wrote = true -> crawled = true) /\
    (seeds = [] -> read = false /\ crawled = false) /\
    (seeds <> [] -> force = true -> crawled = true).
Proof.
  destruct seeds as [|s seeds].
  - exists false, false, false, EmptyString. rewrite buildOrLoad_empty.
    cbn. rewrite List.app_nil_r. split_and!; done.
  - assert (Hcrawl :
      force = true \/ cache_lookup (cacheSig (s :: seeds)) (localStorage w) = None ->
      exists (wrote : bool) (text : string),
        trace (snd (buildOrLoad crawl (s :: seeds) titles force w)) =
          trace w
          ++ (if negb force then [EvGetItem CACHE_KEY] else [])
          ++ [EvCrawl (build_options (s :: seeds) titles)]
          ++ (if wrote then [EvSetItem CACHE_KEY text] else [])).
    { intros Hreach.
      rewrite (buildOrLoad_crawl crawl (s :: seeds) titles force w) by done.
      cbv zeta. unfold crawl_start.
      destruct (crawl _ _) as [g|e]; cbn [snd trace].
      - eexists true, _. destruct force; cbn [negb];
          rewrite <- ?app_assoc; reflexivity.
      - exists false, EmptyString. destruct force; cbn [negb];
          rewrite <- ?app_assoc; reflexivity. }
    destruct force.
    + destruct Hcrawl as (wrote & text & ->); [auto|].
      exists false, true, wrote, text. split_and!; done.
    + destruct (cache_lookup (cacheSig (s :: seeds)) (localStorage w)) as [g|] eqn:Hlook.
      * exists true, false, false, EmptyString.
        rewrite (buildOrLoad_hit crawl (s :: seeds) titles w g) by done.
        cbn. split_and!; done.
      * destruct Hcrawl as (wrote & text & ->); [auto|].
        exists true, true, wrote, text. split_and!; done.
Qed.

Lemma error_message_nonempty (e : exn) : truthy_str (Some (error_message e)) = true.
Proof.
  unfold error_message. destruct (message e) as [m|]; [|reflexivity].
  destruct (truthy_str (Some m)) eqn:E; [exact E|reflexivity].
Qed.

(** X11. After a build with seeds the page shows the network or the
    error box, one and only one of the two, and no loading banner. *)
Theorem build_shows_network_or_error
    (crawl : BuildOptions -> list event -> result Graph)
    (seeds : list string) (titles : gmap string string) (force : bool)
    (w : World) :
  seeds <> [] ->
  let w' := snd (buildOrLoad crawl seeds titles force w) in
  shows_loading w' = false /\
  xorb (shows_network w') (shows_error w') = true.
Proof.
  intros Hne w'.
  destruct (buildOrLoad_outcome crawl seeds titles force w Hne)
    as (_ & Hload & [(Herr & g & Hg & Hn & _)|(e & Herr & _)]); fold w' in Hload, Herr.
  - fold w' in Hg. unfold shows_loading, shows_network, shows_error.
    rewrite Hload, Herr, Hg. split; [done|].
    destruct g; cbn in Hn; try discriminate; reflexivity.
  - unfold shows_loading, shows_network, shows_error.
    rewrite Hload, Herr, error_message_nonempty. split; [done|].
    cbn. now rewrite andb_false_r.
Qed.

Lemma build_shows_network_or_error_witness :
  let w' := snd (buildOrLoad (crawl_throws (Exn None)) ["A"] ∅ false
                   (world_of fresh_storage)) in
  shows_loading w' = false /\
  xorb (shows_network w') (shows_error w') = true.
Proof.
  apply (build_shows_network_or_error (crawl_throws (Exn None)) ["A"] ∅ false
           (world_of fresh_storage)).
  discriminate.
Defined.

(** X12. The network the page shows after a build with seeds is a
    graph whose [nodes] and [links] are truthy, so the line that
    prints [graph.nodes.length] and [graph.links.length] reads
    properties of values that are neither [null] nor [undefined]. *)
Theorem shown_graph_has_containers
    (crawl : BuildOptions -> list event -> result Graph)
    (seeds : list string) (titles : gmap string string) (force : bool)
    (w : World) :
  seeds <> [] ->
  let w' := snd (buildOrLoad crawl seeds titles force w) in
  shows_network w' = true ->
  exists g, graph w' = Some g /\
            truthy (get_prop_opt (Some g) "nodes") = true /\
            truthy (get_prop_opt (Some g) "links") = true.
Proof.
  intros Hne w' Hshow.
  destruct (buildOrLoad_outcome crawl seeds titles force w Hne)
    as (_ & _ & [(_ & g & Hg & Hn & Hl)|(e & Herr & _)]).
  - exists g. auto.
  - fold w' in Herr. unfold shows_network in Hshow.
    rewrite Herr, error_message_nonempty, andb_false_r in Hshow. discriminate.
Qed.

Lemma shown_graph_has_containers_witness :
  let w' := snd (buildOrLoad (crawl_returns sample_graph) ["A"] ∅ false
                   (world_of fresh_storage)) in
  exists g, graph w' = Some g /\
            truthy (get_prop_opt (Some g) "nodes") = true /\
            truthy (get_prop_opt (Some g) "links") = true.
Proof.
  apply (shown_graph_has_containers (crawl_returns sample_graph) ["A"] ∅ false
           (world_of fresh_storage)).
  - discriminate.
  - vm_compute. reflexivity.
Defined.

(** X13. A cache hit is all a build without [force] does: when the
    read returns a graph, that graph is put on display, and the build
    neither calls the crawler nor writes to the storage area. *)
Theorem cache_hit_skips_crawl
    (crawl : BuildOptions -> list event -> result Graph)
    (seeds : list string) (titles : gmap string string)
    (w : World) (g : value) :
  seeds <> [] ->
  fst (tryLoadCache (cacheSig seeds) w) = Ok (Some g) ->
  buildOrLoad crawl seeds titles false w =
  (Ok tt,
   {| graph := Some g; loadingGraph := false; graphErr := None;
      localStorage := localStorage w;
      trace := trace w ++ [EvGetItem CACHE_KEY] |}).
Proof.
  intros Hne Hhit. rewrite tryLoadCache_eq in Hhit. cbn [fst] in Hhit.
  apply buildOrLoad_hit; congruence.
Qed.

Lemma cache_hit_skips_crawl_witness :
  let w := world_of (storage_with_entry "A" (Graph_to_value sample_graph)) in
  buildOrLoad (crawl_throws (Exn None)) ["A"] ∅ false w =
  (Ok tt,
   {| graph := Some (Graph_to_value sample_graph); loadingGraph := false;
      graphErr := None; localStorage := localStorage w;
      trace := trace w ++ [EvGetItem CACHE_KEY] |}).
Proof.
  apply (cache_hit_skips_crawl (crawl_throws (Exn None)) ["A"] ∅
           (world_of (storage_with_entry "A" (Graph_to_value sample_graph)))
           (Graph_to_value sample_graph)).
  - discriminate.
  - vm_compute. reflexivity.
Defined.

(** ** The effect on [cacheSig] *)

(** X14. A render whose papers give the same set of seeds as the
    render the effect last ran for does nothing: no read, no crawl, no
    change of the graph, even if the rows came in another order or the
    titles changed. *)
Theorem effect_skips_equal_seed_sets
    (crawl : BuildOptions -> list event -> result Graph)
    (papers1 papers2 : list Paper) (w : World) :
  (forall x, x ∈ seedDois papers1 <-> x ∈ seedDois papers2) ->
  useEffect_cacheSig crawl (Some (cacheSig (seedDois papers1))) papers2 w
  = (Ok tt, w).
Proof.
  intros Heq. unfold useEffect_cacheSig.
  assert (cacheSig (seedDois papers1) = cacheSig (seedDois papers2)) as ->.
  { unfold cacheSig. f_equal.
    apply Array_sort_perm_eq, NoDup_Permutation;
      [apply Array_from_Set_NoDup|apply Array_from_Set_NoDup|exact Heq]. }
  rewrite bool_decide_eq_true_2 by reflexivity. reflexivity.
Qed.

Lemma effect_skips_equal_seed_sets_witness :
  useEffect_cacheSig (crawl_returns sample_graph)
    (Some (cacheSig (seedDois
       [ {| paper_doi := Some "a"; paper_title := Some "old title" |};
         {| paper_doi := Some "b"; paper_title := None |} ])))
    [ {| paper_doi := Some "b "; paper_title := None |};
      {| paper_doi := Some "a"; paper_title := Some "new title" |} ]
    (world_of fresh_storage)
  = (Ok tt, world_of fresh_storage).
Proof.
  apply (effect_skips_equal_seed_sets (crawl_returns sample_graph)).
  intros x. vm_compute seedDois.
  rewrite !elem_of_cons, !elem_of_nil. tauto.
Defined.

Lemma cacheSig_nonempty (l : list string) :
  l <> [] -> (forall x, x ∈ l -> x <> EmptyString) -> cacheSig l <> EmptyString.
Proof.
  intros Hne Hx. unfold cacheSig, Array_join.
  pose proof (merge_sort_Permutation str_le l) as Hp. fold (Array_sort l) in Hp.
  destruct (Array_sort l) as [|h t] eqn:E.
  - apply Permutation_nil_l in Hp. congruence.
  - assert (Hh : h <> EmptyString).
    { apply Hx. rewrite <- Hp. apply list_elem_of_here. }
    destruct h as [|c h]; [done|]. destruct t; discriminate.
Qed.

(** X15. Once the CSV brings at least one usable DOI, the effect that
    last ran for no paper at all runs the build. *)
Theorem effect_builds_on_first_seeds
    (crawl : BuildOptions -> list event -> result Graph)
    (papers : list Paper) (w : World) :
  seedDois papers <> [] ->
  useEffect_cacheSig crawl (Some (cacheSig (seedDois []))) papers w =
  buildOrLoad crawl (seedDois papers) (titlesByDoi papers) false w.
Proof.
  intros Hne. unfold useEffect_cacheSig.
  rewrite bool_decide_eq_false_2; [reflexivity|].
  intros [= E]. symmetry in E. revert E. apply cacheSig_nonempty; [done|].
  intros x Hx%seedDois_elem. tauto.
Qed.

Lemma effect_builds_on_first_seeds_witness :
  useEffect_cacheSig (crawl_returns sample_graph) (Some (cacheSig (seedDois [])))
    [ {| paper_doi := Some "A"; paper_title := None |} ] (world_of fresh_storage) =
  buildOrLoad (crawl_returns sample_graph)
    (seedDois [ {| paper_doi := Some "A"; paper_title := None |} ])
    (titlesByDoi [ {| paper_doi := Some "A"; paper_title := None |} ])
    false (world_of fresh_storage).
Proof.
  apply (effect_builds_on_first_seeds (crawl_returns sample_graph)
           [ {| paper_doi := Some "A"; paper_title := None |} ]
           (world_of fresh_storage)).
  vm_compute. discriminate.
Defined.

(** ** Concepts: the counts and the ten most frequent *)

Example topConcepts_sample :
  topConcepts (list string) Some
    [["ml"; "bio"]; ["bio"]; ["ML"; "bio"; "ml"]] = ["bio"; "ml"; "ML"].
Proof. vm_compute. reflexivity. Qed.

Lemma occurrences_app (l1 l2 : list string) (c : string) :
  occurrences (l1 ++ l2) c = occurrences l1 c + occurrences l2 c.
Proof. unfold occurrences. now rewrite List.filter_app, List.length_app. Qed.

Lemma occurrences_pos (l : list string) (c : string) :
  0 < occurrences l c <-> c ∈ l.
Proof.
  unfold occurrences. induction l as [|x l IH]; simpl.
  - rewrite elem_of_nil. lia.
  - rewrite elem_of_cons. destruct (String.eqb_spec c x) as [->|Hne]; simpl.
    + split; [auto|lia].
    + rewrite IH. split; [auto|]. intros [?|?]; [done|auto].
Qed.

Lemma Map_bump_count (m : list (string * nat)) (c k : string) :
  count_of (Map_bump m c) k = count_of m k + (if String.eqb c k then 1 else 0).
Proof.
  induction m as [|[k' n] m IH]; simpl.
  - destruct (String.eqb c k); lia.
  - destruct (String.eqb_spec k' c) as [->|Hne]; simpl.
    + destruct (String.eqb c k); lia.
    + destruct (String.eqb_spec k' k) as [->|Hne'].
      * destruct (String.eqb_spec c k) as [->|_]; [done|lia].
      * exact IH.
Qed.

Lemma Map_bump_keys (m : list (string * nat)) (c k : string) :
  k ∈ (Map_bump m c).*1 <-> k ∈ m.*1 \/ k = c.
Proof.
  induction m as [|[k' n] m IH]; simpl.
  - rewrite list_elem_of_singleton, elem_of_nil. tauto.
  - destruct (String.eqb_spec k' c) as [->|Hne]; simpl.
    + rewrite !elem_of_cons. tauto.
    + rewrite !elem_of_cons, IH. tauto.
Qed.

(** A map of counts in good order: no key twice, no count of zero. *)
Lemma Map_bump_wf (m : list (string * nat)) (c : string) :
  NoDup m.*1 /\ Forall (fun e => 0 < snd e) m ->
  NoDup (Map_bump m c).*1 /\ Forall (fun e => 0 < snd e) (Map_bump m c).
Proof.
  induction m as [|[k' n] m IH]; simpl.
  - intros _. split; [apply NoDup_singleton|]. repeat constructor.
  - intros [[Hk Hnd]%NoDup_cons [Hn Hall]%Forall_cons].
    destruct (String.eqb_spec k' c) as [->|Hne]; simpl.
    + split; [now apply NoDup_cons|]. constructor; [simpl; lia|done].
    + destruct IH as [IH1 IH2]; [done|]. split.
      * apply NoDup_cons. split; [|done]. rewrite Map_bump_keys. tauto.
      * now constructor.
Qed.

Lemma count_of_entry (m : list (string * nat)) (k : string) (n : nat) :
  NoDup m.*1 -> Forall (fun e => 0 < snd e) m ->
  (k, n) ∈ m <-> n = count_of m k /\ 0 < n.
Proof.
  induction m as [|[k' n'] m IH]; simpl.
  - intros _ _. rewrite elem_of_nil. lia.
  - intros [Hk Hnd]%NoDup_cons [Hn Hall]%Forall_cons. simpl in Hn.
    rewrite elem_of_cons, IH by done.
    destruct (String.eqb_spec k' k) as [->|Hne].
    + split.
      * intros [[= ->]|[-> Hpos]]; [done|]. exfalso. apply Hk.
        apply list_elem_of_fmap. exists (k, count_of m k). split; [done|].
        apply IH; done.
      * intros [-> _]. now left.
    + split; [|tauto]. intros [[= -> ->]|?]; [done|tauto].
Qed.

Section ConceptFacts.

Variable P : Type.
Variable concepts : P -> option (list string).

Lemma count_paper_spec (m : list (string * nat)) (p : P) (k : string) :
  (NoDup m.*1 /\ Forall (fun e => 0 < snd e) m ->
   NoDup (count_paper P concepts m p).*1 /\
   Forall (fun e => 0 < snd e) (count_paper P concepts m p)) /\
  count_of (count_paper P concepts m p) k =
  count_of m k + occurrences (default [] (concepts p)) k.
Proof.
  unfold count_paper. destruct (concepts p) as [cs|]; simpl;
    [|split; [auto|unfold occurrences; simpl; lia]].
  revert m. induction cs as [|c cs IH]; intros m; simpl.
  - split; [auto|unfold occurrences; simpl; lia].
  - destruct (IH (Map_bump m c)) as [IH1 IH2]. split.
    + intros Hwf. apply IH1. now apply Map_bump_wf.
    + rewrite IH2, Map_bump_count. unfold occurrences. simpl.
      rewrite (String.eqb_sym k c). destruct (String.eqb c k); simpl; lia.
Qed.

Lemma conceptCounts_fold (papers : list P) (m : list (string * nat)) (k : string) :
  (NoDup m.*1 /\ Forall (fun e => 0 < snd e) m ->
   NoDup (fold_left (count_paper P concepts) papers m).*1 /\
   Forall (fun e => 0 < snd e) (fold_left (count_paper P concepts) papers m)) /\
  count_of (fold_left (count_paper P concepts) papers m) k =
  count_of m k + occurrences (all_concepts P concepts papers) k.
Proof.
  revert m. induction papers as [|p papers IH]; intros m; simpl.
  - split; [auto|]. unfold all_concepts, occurrences. simpl. lia.
  - destruct (IH (count_paper P concepts m p)) as [IH1 IH2].
    destruct (count_paper_spec m p k) as [Hp1 Hp2]. split.
    + intros Hwf. auto.
    + rewrite IH2, Hp2. unfold all_concepts. simpl.
      rewrite occurrences_app. fold (all_concepts P concepts papers). lia.
Qed.

Lemma conceptCounts_wf (papers : list P) :
  NoDup (conceptCounts P concepts papers).*1 /\
  Forall (fun e => 0 < snd e) (conceptCounts P concepts papers).
Proof.
  apply (conceptCounts_fold papers [] EmptyString).
  split; [apply NoDup_nil_2|constructor].
Qed.

Lemma conceptCounts_entry (papers : list P) (k : string) (n : nat) :
  (k, n) ∈ conceptCounts P concepts papers <->
  n = occurrences (all_concepts P concepts papers) k /\ 0 < n.
Proof.
  destruct (conceptCounts_wf papers) as [Hnd Hpos].
  rewrite count_of_entry by done. unfold conceptCounts.
  destruct (conceptCounts_fold papers [] k) as [_ ->]. simpl. tauto.
Qed.

(** X16. The map of counts holds each concept the papers mention
    once, with the number of times the papers mention it, under the
    name as written; it holds nothing else. *)
Theorem conceptCounts_spec (papers : list P) :
  NoDup (conceptCounts P concepts papers).*1 /\
  forall (k : string) (n : nat),
    (k, n) ∈ conceptCounts P concepts papers <->
    n = occurrences (all_concepts P concepts papers) k /\ 0 < n.
Proof. split; [apply conceptCounts_wf|apply conceptCounts_entry]. Qed.

End ConceptFacts.

(** ** The sort by count *)

Lemma insert_by_count_perm (x : string * nat) (l : list (string * nat)) :
  insert_by_count x l ≡ₚ x :: l.
Proof.
  induction l as [|y l IH]; simpl; [done|].
  destruct (Nat.ltb (snd x) (snd y)); [|done].
  rewrite IH. apply Permutation_swap.
Qed.

Lemma sort_by_count_perm (l : list (string * nat)) : sort_by_count l ≡ₚ l.
Proof.
  induction l as [|x l IH]; simpl; [done|].
  now rewrite insert_by_count_perm, IH.
Qed.

Lemma insert_by_count_sorted (x : string * nat) (l : list (string * nat)) :
  StronglySorted (fun a b => snd b <= snd a) l ->
  StronglySorted (fun a b => snd b <= snd a) (insert_by_count x l).
Proof.
  induction 1 as [|y l Hl IH Hy]; simpl; [repeat constructor|].
  destruct (Nat.ltb_spec (snd x) (snd y)) as [Hlt|Hge].
  - constructor; [done|]. apply Forall_forall. intros z Hz.
    rewrite insert_by_count_perm in Hz. apply elem_of_cons in Hz as [->|Hz]; [lia|].
    rewrite Forall_forall in Hy. auto.
  - constructor; [now constructor|]. constructor; [done|].
    apply Forall_forall. intros z Hz. rewrite Forall_forall in Hy.
    specialize (Hy z Hz). lia.
Qed.

Lemma sort_by_count_sorted (l : list (string * nat)) :
  StronglySorted (fun a b => snd b <= snd a) (sort_by_count l).
Proof.
  induction l as [|x l IH]; simpl; [constructor|].
  now apply insert_by_count_sorted.
Qed.

Lemma sorted_lookup_order {A : Type} (R : relation A) (l : list A)
    (i j : nat) (x y : A) :
  StronglySorted R l -> i < j -> l !! i = Some x -> l !! j = Some y -> R x y.
Proof.
  intros Hs Hij Hi Hj. rewrite <- (take_drop j l) in Hs.
  apply (StronglySorted_app_1_elem_of _ _ _ _ _ Hs).
  - apply elem_of_take. eauto.
  - apply (list_elem_of_lookup_2 _ 0). rewrite lookup_drop.
    now rewrite Nat.add_0_r.
Qed.

Section TopConceptFacts.

Variable P : Type.
Variable concepts : P -> option (list string).

Lemma topConcepts_entry (papers : list P) (c : string) :
  c ∈ topConcepts P concepts papers ->
  (c, occurrences (all_concepts P concepts papers) c)
    ∈ take 10 (sort_by_count (conceptCounts P concepts papers)).
Proof.
  unfold topConcepts. intros ([k n] & -> & Hin)%list_elem_of_fmap. simpl.
  assert (Hall : (k, n) ∈ conceptCounts P concepts papers).
  { rewrite <- sort_by_count_perm. eapply elem_of_sublist; [exact Hin|].
    apply sublist_take. }
  apply (conceptCounts_entry P concepts) in Hall as [-> _]. exact Hin.
Qed.

(** X17. [topConcepts] lists at most ten names, none of them twice,
    and every one of them a concept that some paper mentions. *)
Theorem topConcepts_wellformed (papers : list P) :
  List.length (topConcepts P concepts papers) <= 10 /\
  NoDup (topConcepts P concepts papers) /\
  forall c, c ∈ topConcepts P concepts papers ->
            c ∈ all_concepts P concepts papers.
Proof.
  split_and!.
  - unfold topConcepts. rewrite length_fmap, length_take. lia.
  - unfold topConcepts. eapply sublist_NoDup;
      [|apply fmap_sublist, sublist_take].
    rewrite sort_by_count_perm. apply (conceptCounts_wf P concepts).
  - intros c Hc%topConcepts_entry. apply occurrences_pos.
    assert (Hall : (c, occurrences (all_concepts P concepts papers) c)
                     ∈ conceptCounts P concepts papers).
    { rewrite <- sort_by_count_perm. eapply elem_of_sublist; [exact Hc|].
      apply sublist_take. }
    now apply (conceptCounts_entry P concepts) in Hall as [_ Hpos].
Qed.

(** X18. The names are the most frequent ones, most frequent first: a
    concept that is listed is mentioned at least as often as any that
    is not, and at least as often as those listed after it. *)
Theorem topConcepts_most_frequent (papers : list P) :
  (forall c c' : string,
     c ∈ topConcepts P concepts papers ->
     c' ∉ topConcepts P concepts papers ->
     occurrences (all_concepts P concepts papers) c'
       <= occurrences (all_concepts P concepts papers) c) /\
  (forall (i j : nat) (c c' : string),
     i < j ->
     topConcepts P concepts papers !! i = Some c ->
     topConcepts P concepts papers !! j = Some c' ->
     occurrences (all_concepts P concepts papers) c'
       <= occurrences (all_concepts P concepts papers) c).
Proof.
  pose proof (sort_by_count_sorted (conceptCounts P concepts papers)) as Hs.
  rewrite <- (take_drop 10 (sort_by_count (conceptCounts P concepts papers))) in Hs.
  split.
  - intros c c' Hc%topConcepts_entry Hc'.
    destruct (occurrences (all_concepts P concepts papers) c') as [|n] eqn:E; [lia|].
    assert (Hall : (c', S n) ∈ conceptCounts P concepts papers).
    { apply (conceptCounts_entry P concepts). split; [done|lia]. }
    rewrite <- sort_by_count_perm,
      <- (take_drop 10 (sort_by_count (conceptCounts P concepts papers))),
      elem_of_app in Hall.
    destruct Hall as [Hin|Hin].
    + exfalso. apply Hc'. unfold topConcepts.
      apply list_elem_of_fmap. now exists (c', S n).
    + apply (StronglySorted_app_1_elem_of _ _ _ _ _ Hs Hc Hin).
  - intros i j c c' Hij Hi Hj.
    apply StronglySorted_app_1_l in Hs.
    unfold topConcepts in Hi, Hj. rewrite list_lookup_fmap in Hi, Hj.
    destruct (take 10 (sort_by_count (conceptCounts P concepts papers)) !! i)
      as [[k n]|] eqn:Ei; [|discriminate]. injection Hi as ->.
    destruct (take 10 (sort_by_count (conceptCounts P concepts papers)) !! j)
      as [[k' n']|] eqn:Ej; [|discriminate]. injection Hj as ->.
    assert (Hk : forall k0 n0,
      (k0, n0) ∈ take 10 (sort_by_count (conceptCounts P concepts papers)) ->
      n0 = occurrences (all_concepts P concepts papers) k0).
    { intros k0 n0 Hin.
      assert (Hall : (k0, n0) ∈ conceptCounts P concepts papers).
      { rewrite <- sort_by_count_perm. eapply elem_of_sublist; [exact Hin|].
        apply sublist_take. }
      now apply (conceptCounts_entry P concepts) in Hall as [-> _]. }
    rewrite <- (Hk c n), <- (Hk c' n')
      by (eapply list_elem_of_lookup_2; eassumption).
    exact (sorted_lookup_order _ _ _ _ _ _ Hs Hij Ei Ej).
Qed.

(** X19. When the papers mention at most ten different concepts, every
    one of them is listed. *)
Theorem topConcepts_complete (papers : list P) (c : string) :
  List.length (conceptCounts P concepts papers) <= 10 ->
  c ∈ all_concepts P concepts papers ->
  c ∈ topConcepts P concepts papers.
Proof.
  intros Hlen Hc%occurrences_pos. unfold topConcepts.
  rewrite take_ge by (rewrite sort_by_count_perm; exact Hlen).
  apply list_elem_of_fmap.
  exists (c, occurrences (all_concepts P concepts papers) c). split; [done|].
  rewrite sort_by_count_perm. now apply (conceptCounts_entry P concepts).
Qed.

End TopConceptFacts.

Lemma topConcepts_complete_witness :
  "ml" ∈ topConcepts (list string) Some [["ml"; "bio"]; ["bio"]].
Proof.
  apply (topConcepts_complete (list string) Some [["ml"; "bio"]; ["bio"]] "ml").
  - vm_compute. lia.
  - vm_compute. apply list_elem_of_here.
Defined.

(** ** The toggle and the filter *)

Set Warnings "-clear-no-such-hyp".

(** X20. Toggling a concept flips its membership and no other;
    toggling it twice gives back the set one started from. *)
Theorem handleConceptToggle_flips (c : string) (s : gset string) :
  (c ∈ handleConceptToggle c s <-> c ∉ s) /\
  (forall x, x <> c -> (x ∈ handleConceptToggle c s <-> x ∈ s)) /\
  handleConceptToggle c (handleConceptToggle c s) = s.
Proof.
  unfold handleConceptToggle. split_and!.
  - case_bool_decide; set_solver.
  - intros x Hx. case_bool_decide; set_solver.
  - destruct (decide (c ∈ s)) as [Hin|Hout].
    + rewrite (bool_decide_eq_true_2 _ Hin).
      rewrite bool_decide_eq_false_2 by set_solver.
      apply set_eq. intros x. destruct (decide (x = c)); set_solver.
    + rewrite (bool_decide_eq_false_2 _ Hout).
      rewrite bool_decide_eq_true_2 by set_solver.
      set_solver.
Qed.

Section FilterFacts.

Variable P : Type.
Variable concepts : P -> option (list string).

Lemma has_active_concept_spec (active : gset string) (p : P) :
  has_active_concept P concepts active p = true <->
  exists cs c, concepts p = Some cs /\ c ∈ cs /\ c ∈ active.
Proof.
  unfold has_active_concept. destruct (concepts p) as [cs|].
  - rewrite existsb_exists. split.
    + intros (c & Hc%list_elem_of_In & Ha%bool_decide_eq_true). eauto.
    + intros (cs' & c & [= <-] & Hc & Ha). exists c.
      split; [now apply list_elem_of_In|now apply bool_decide_eq_true].
  - split; [discriminate|]. intros (cs & c & ? & _). discriminate.
Qed.

Lemma filteredPapers_elem (papers : list P) (active : gset string) (p : P) :
  active <> ∅ ->
  p ∈ filteredPapers P concepts papers active <->
  p ∈ papers /\ exists cs c, concepts p = Some cs /\ c ∈ cs /\ c ∈ active.
Proof.
  intros Hne. unfold filteredPapers.
  destruct (Nat.eqb_spec (size active) 0) as [E|E].
  - apply size_empty_iff in E. apply leibniz_equiv in E. done.
  - rewrite list_elem_of_In, List.filter_In,
      <- list_elem_of_In, has_active_concept_spec. reflexivity.
Qed.

(** X21. The filter keeps the papers in their order and drops some:
    with no active concept it keeps them all, and with some it keeps
    exactly the papers that have a [concepts] field holding an active
    concept. *)
Theorem filteredPapers_spec (papers : list P) (active : gset string) :
  filteredPapers P concepts papers active `sublist_of` papers /\
  (active = ∅ -> filteredPapers P concepts papers active = papers) /\
  (active <> ∅ ->
   forall p, p ∈ filteredPapers P concepts papers active <->
             p ∈ papers /\
             exists cs c, concepts p = Some cs /\ c ∈ cs /\ c ∈ active).
Proof.
  split_and!.
  - unfold filteredPapers. destruct (Nat.eqb (size active) 0); [done|].
    induction papers as [|p papers IH]; simpl; [done|].
    destruct (has_active_concept P concepts active p).
    + now apply sublist_skip.
    + now apply sublist_cons.
  - intros ->. reflexivity.
  - intros Hne p. now apply filteredPapers_elem.
Qed.

(** X22. While some concept is active, activating more concepts never
    hides a paper that was shown. *)
Theorem filteredPapers_monotone (papers : list P) (active active' : gset string)
    (p : P) :
  active <> ∅ -> active ⊆ active' ->
  p ∈ filteredPapers P concepts papers active ->
  p ∈ filteredPapers P concepts papers active'.
Proof.
  intros Hne Hsub Hp.
  assert (Hne' : active' <> ∅).
  { intros ->. apply Hne. apply leibniz_equiv, equiv_empty. exact Hsub. }
  apply (filteredPapers_elem papers active p Hne) in Hp
    as (Hin & cs & c & Hcs & Hc & Ha).
  apply (filteredPapers_elem papers active' p Hne'). split; [done|].
  exists cs, c. split_and!; [done|done|]. now apply Hsub.
Qed.

(** X23. Switching the only active concept off shows every paper
    again. *)
Theorem toggle_last_concept_shows_all (papers : list P) (c : string) :
  filteredPapers P concepts papers (handleConceptToggle c {[c]}) = papers.
Proof.
  unfold handleConceptToggle.
  rewrite bool_decide_eq_true_2 by set_solver.
  assert (({[c]} ∖ {[c]} : gset string) = ∅) as -> by set_solver.
  reflexivity.
Qed.

End FilterFacts.

Lemma filteredPapers_monotone_witness :
  ["bio"; "ml"] ∈ filteredPapers (list string) Some
                    [["bio"; "ml"]; ["physics"]] {[ "ml"; "physics" ]}.
Proof.
  apply (filteredPapers_monotone (list string) Some
           [["bio"; "ml"]; ["physics"]] {[ "ml" ]} {[ "ml"; "physics" ]}).
  - apply non_empty_singleton_L.
  - set_solver.
  - vm_compute. apply list_elem_of_here.
Defined.

(** ** Ties: the order of first mention *)

Lemma Map_bump_order (m : list (string * nat)) (c : string) :
  (Map_bump m c).*1 = Set_add m.*1 c.
Proof.
  unfold Set_add. induction m as [|[k n] m IH]; [reflexivity|].
  simpl Map_bump.
  destruct (String.eqb_spec k c) as [->|Hne]; rewrite !fmap_cons; cbn [fst].
  - rewrite bool_decide_eq_true_2 by apply list_elem_of_here. reflexivity.
  - rewrite IH. case_bool_decide as Hin.
    + rewrite bool_decide_eq_true_2 by now apply list_elem_of_further.
      reflexivity.
    + rewrite bool_decide_eq_false_2; [reflexivity|].
      intros [?|?]%elem_of_cons; congruence.
Qed.

Lemma insert_by_count_stable (n : nat) (x : string * nat) (l : list (string * nat)) :
  List.filter (fun e => Nat.eqb (snd e) n) (insert_by_count x l) =
  List.filter (fun e => Nat.eqb (snd e) n) (x :: l).
Proof.
  induction l as [|y l IH]; [reflexivity|]. simpl insert_by_count.
  destruct (Nat.ltb_spec (snd x) (snd y)) as [Hlt|Hge]; [|reflexivity].
  simpl in *. rewrite IH.
  destruct (Nat.eqb_spec (snd x) n) as [Ex|Ex], (Nat.eqb_spec (snd y) n) as [Ey|Ey];
    try reflexivity. lia.
Qed.

(** The sort is stable: the entries of one count keep their order. *)
Lemma sort_by_count_stable (n : nat) (l : list (string * nat)) :
  List.filter (fun e => Nat.eqb (snd e) n) (sort_by_count l) =
  List.filter (fun e => Nat.eqb (snd e) n) l.
Proof.
  induction l as [|x l IH]; [reflexivity|].
  simpl sort_by_count. rewrite insert_by_count_stable. simpl. now rewrite IH.
Qed.

Lemma filter_fst (f : string -> bool) (l : list (string * nat)) :
  List.filter f l.*1 = (List.filter (fun e => f (fst e)) l).*1.
Proof.
  induction l as [|[k n] l IH]; [reflexivity|].
  rewrite fmap_cons. cbn [List.filter fst].
  destruct (f k); rewrite ?fmap_cons; cbn [fst]; now rewrite IH.
Qed.

Section TieFacts.

Variable P : Type.
Variable concepts : P -> option (list string).

Lemma conceptCounts_keys (papers : list P) :
  (conceptCounts P concepts papers).*1 =
  Array_from_Set (all_concepts P concepts papers).
Proof.
  unfold conceptCounts, Array_from_Set, all_concepts.
  change (@nil string) with ((@nil (string * nat)).*1) at 2.
  generalize (@nil (string * nat)) as m.
  induction papers as [|p papers IH]; intros m; [reflexivity|].
  simpl. rewrite fold_left_app, IH. f_equal.
  unfold count_paper. destruct (concepts p) as [cs|]; [|reflexivity]. simpl.
  revert m. induction cs as [|c cs IHcs]; intros m; [reflexivity|].
  simpl. now rewrite IHcs, Map_bump_order.
Qed.

(** X24. The map of counts lists the concepts in the order of their
    first mention in the papers. *)
Theorem conceptCounts_first_mention_order (papers : list P) :
  (conceptCounts P concepts papers).*1 =
  Array_from_Set (all_concepts P concepts papers).
Proof. apply conceptCounts_keys. Qed.

(** X25. [topConcepts] is the head of a ranking in which concepts
    mentioned equally often stand in the order of their first
    mention: this is what decides which of them make the ten. *)
Theorem ranking_ties_first_mention (papers : list P) (n : nat) :
  topConcepts P concepts papers = take 10 (ranked_concepts P concepts papers) /\
  List.filter
    (fun c => Nat.eqb (occurrences (all_concepts P concepts papers) c) n)
    (ranked_concepts P concepts papers) =
  List.filter
    (fun c => Nat.eqb (occurrences (all_concepts P concepts papers) c) n)
    (Array_from_Set (all_concepts P concepts papers)).
Proof.
  split; [unfold topConcepts, ranked_concepts; now rewrite fmap_take|].
  assert (Hext : forall l : list (string * nat),
    (forall e, e ∈ l -> e ∈ conceptCounts P concepts papers) ->
    List.filter
      (fun e => Nat.eqb (occurrences (all_concepts P concepts papers) (fst e)) n) l =
    List.filter (fun e => Nat.eqb (snd e) n) l).
  { intros l Hl. apply List.filter_ext_in. intros [k m] Hin%list_elem_of_In.
    apply Hl, (conceptCounts_entry P concepts) in Hin as [-> _]. reflexivity. }
  rewrite <- conceptCounts_keys. unfold ranked_concepts.
  rewrite (filter_fst
             (fun c => Nat.eqb (occurrences (all_concepts P concepts papers) c) n)
             (sort_by_count (conceptCounts P concepts papers))).
  rewrite (filter_fst
             (fun c => Nat.eqb (occurrences (all_concepts P concepts papers) c) n)
             (conceptCounts P concepts papers)).
  f_equal.
  rewrite !Hext; [apply sort_by_count_stable|done|].
  intros e. now rewrite sort_by_count_perm.
Qed.

End TieFacts.
